(** * autotyping: the annotation codemod of [autotyper/autotype.py]

    A shallow embedding of [NamedParam.make], of the [State] record and of
    the visitor hooks of [AutotypeCommand], together with the depth-first
    traversal that drives them ([CSTNode.visit] of libcst: [visit_X] on
    entry, the children in field order, [leave_X] on exit). *)

From Stdlib Require Import List String Ascii Bool Arith Lia.
Import ListNotations.
Open Scope string_scope.
Open Scope list_scope.

Set Implicit Arguments.
Set Warnings "-register-all".

(** ** Exceptions and fallible results *)

Inductive exn : Type :=
| ValueError   (* failed tuple unpacking in [NamedParam.make] *)
| IndexError.  (* [l[-1] = v] or [l.pop()] on an empty list *)

Inductive result (A : Type) : Type :=
| Ok (a : A)
| Err (e : exn).

Arguments Err {A} e.

(** ** Python string and list primitives used by the source *)

Module Py.

(** [s.split(sep)] for a one-character separator: cut at every
    occurrence, so [n] occurrences give [n + 1] pieces. *)
Fixpoint split (sep : ascii) (s : string) : list string :=
  match s with
  | EmptyString => [EmptyString]
  | String c r =>
      if Ascii.eqb c sep then EmptyString :: split sep r
      else match split sep r with
           | p :: ps => String c p :: ps
           | [] => [String c EmptyString]
           end
  end.

(** The cut at the last occurrence of [sep], if there is one. *)
Fixpoint rcut (sep : ascii) (s : string) : option (string * string) :=
  match s with
  | EmptyString => None
  | String c r =>
      match rcut sep r with
      | Some (a, b) => Some (String c a, b)
      | None => if Ascii.eqb c sep then Some (EmptyString, r) else None
      end
  end.

(** [s.rsplit(sep, maxsplit=1)]. *)
Definition rsplit1 (sep : ascii) (s : string) : list string :=
  match rcut sep s with
  | Some (a, b) => [a; b]
  | None => [s]
  end.

(** [a, b = xs]: exactly two values, [ValueError] otherwise. *)
Definition unpack2 (xs : list string) : result (string * string) :=
  match xs with
  | [a; b] => Ok (a, b)
  | _ => Err ValueError
  end.

(** [l.append(x)]. *)
Definition append {A : Type} (l : list A) (x : A) : list A := l ++ [x].

(** [l.pop()]: the last element and the rest; [None] on the empty list
    (where Python raises [IndexError]). *)
Fixpoint pop {A : Type} (l : list A) : option (A * list A) :=
  match l with
  | [] => None
  | a :: r =>
      match pop r with
      | None => Some (a, [])
      | Some (x, r') => Some (x, a :: r')
      end
  end.

(** [l[-1] = x]; [None] on the empty list ([IndexError]). *)
Fixpoint set_last {A : Type} (l : list A) (x : A) : option (list A) :=
  match l with
  | [] => None
  | a :: r =>
      match set_last r x with
      | None => Some [x]
      | Some r' => Some (a :: r')
      end
  end.

(** [d[k]] / [k in d] on a dict literal, kept as an association list. *)
Fixpoint get {V : Type} (d : list (string * V)) (k : string) : option V :=
  match d with
  | [] => None
  | (k', v) :: d' => if String.eqb k k' then Some v else get d' k
  end.

(** Number of occurrences of a character. *)
Fixpoint count (c : ascii) (s : string) : nat :=
  match s with
  | EmptyString => 0
  | String a r => (if Ascii.eqb a c then 1 else 0) + count c r
  end.

End Py.

(** ** [NamedParam] *)

Record NamedParam : Type := mkNamedParam {
  name : string;
  module : string;
  type_name : string
}.

Definition colon : ascii := ":"%char.
Definition dot : ascii := "."%char.

(** [NamedParam.make]. *)
Definition make (input : string) : result NamedParam :=
  match Py.unpack2 (Py.split colon input) with
  | Err e => Err e
  | Ok (nm, type_path) =>
      match Py.unpack2 (Py.rsplit1 dot type_path) with
      | Err e => Err e
      | Ok (md, ty) => Ok (mkNamedParam nm md ty)
      end
  end.

(** ** [State] *)

Record State : Type := mkState {
  annotate_optionals : list NamedParam;
  annotate_named_params : list NamedParam;
  annotate_magics : bool;
  annotate_imprecise_magics : bool;
  none_return : bool;
  bool_param : bool;
  seen_return_statement : list bool;
  seen_raise_statement : list bool;
  seen_yield : list bool;
  in_lambda : bool
}.

Definition SIMPLE_MAGICS : list (string * string) :=
  [ ("__str__", "str");
    ("__repr__", "str");
    ("__len__", "int");
    ("__init__", "None");
    ("__del__", "None");
    ("__bool__", "bool");
    ("__bytes__", "bytes");
    ("__format__", "str");
    ("__contains__", "bool");
    ("__complex__", "complex");
    ("__int__", "int");
    ("__float__", "float");
    ("__index__", "int") ].

Definition IMPRECISE_MAGICS : list (string * (string * string)) :=
  [ ("__iter__", ("typing", "Iterator"));
    ("__reversed__", ("typing", "Iterator"));
    ("__await__", ("typing", "Iterator")) ].

(** ** Syntax trees

    The libcst node classes the hooks look at, with their children in the
    order [_visit_and_replace_children] visits them; whitespace, commas and
    parenthesis fields carry no node of these classes and are left out.
    [FunctionDef.name] and [Param.name] are [Name] nodes in libcst and are
    kept as the string [name.value].  Every other node class (Module,
    ClassDef, If, For, Try, Call, ...) is an [Other] node with its children
    in visiting order. *)

Inductive node : Type :=
| Name (value : string)
| Annotation (annotation : node)
| Index (value : node)
| SubscriptElement (slice : node)
| Subscript (value : node) (slice : list node)
| Param (nm : string) (annotation : option node) (default : option node)
| Parameters (params : list node)
| FunctionDef (decorators : list node) (nm : string) (params : node)
              (returns : option node) (body : node)
| Lambda (params : node) (body : node)
| Return (value : option node)
| Raise (exc : option node) (cause : option node)
| Yield (value : option node)
| Other (kind : string) (children : list node).

(** ** The command: visitor state plus the import requests recorded in the
    codemod context by [AddImportsVisitor.add_needed_import]. *)

Record AutotypeCommand : Type := mkCommand {
  state : State;
  context : list (string * string)
}.

Definition M (A : Type) : Type := AutotypeCommand -> result (A * AutotypeCommand).

Definition ret {A : Type} (a : A) : M A := fun c => Ok (a, c).

Definition bind {A B : Type} (m : M A) (k : A -> M B) : M B :=
  fun c => match m c with
           | Ok (a, c') => k a c'
           | Err e => Err e
           end.

Declare Scope cmd_scope.
Delimit Scope cmd_scope with cmd.
Notation "x <- m ;; k" := (bind m (fun x => k))
  (at level 61, m at next level, right associativity) : cmd_scope.
Notation "m ;; k" := (bind m (fun _ => k))
  (at level 61, right associativity) : cmd_scope.
Open Scope cmd_scope.

Definition get_state : M State := fun c => Ok (state c, c).

Definition put_state (s : State) : M unit :=
  fun c => Ok (tt, mkCommand s (context c)).

Definition lift_index {A : Type} (o : option A) : M A :=
  fun c => match o with
           | Some a => Ok (a, c)
           | None => Err IndexError
           end.

Definition add_needed_import (md obj : string) : M unit :=
  fun c => Ok (tt, mkCommand (state c) (context c ++ [(md, obj)])).

(** Field updates of [self.state]. *)

Definition set_seen_return_statement (s : State) (l : list bool) : State :=
  mkState (annotate_optionals s) (annotate_named_params s) (annotate_magics s)
          (annotate_imprecise_magics s) (none_return s) (bool_param s)
          l (seen_raise_statement s) (seen_yield s) (in_lambda s).

Definition set_seen_raise_statement (s : State) (l : list bool) : State :=
  mkState (annotate_optionals s) (annotate_named_params s) (annotate_magics s)
          (annotate_imprecise_magics s) (none_return s) (bool_param s)
          (seen_return_statement s) l (seen_yield s) (in_lambda s).

Definition set_seen_yield (s : State) (l : list bool) : State :=
  mkState (annotate_optionals s) (annotate_named_params s) (annotate_magics s)
          (annotate_imprecise_magics s) (none_return s) (bool_param s)
          (seen_return_statement s) (seen_raise_statement s) l (in_lambda s).

Definition set_in_lambda (s : State) (b : bool) : State :=
  mkState (annotate_optionals s) (annotate_named_params s) (annotate_magics s)
          (annotate_imprecise_magics s) (none_return s) (bool_param s)
          (seen_return_statement s) (seen_raise_statement s) (seen_yield s) b.

(** ** The hooks of [AutotypeCommand] *)

(** [__init__]: the rule strings are parsed left to right, the first
    malformed one raises. *)
Fixpoint make_all (l : list string) : result (list NamedParam) :=
  match l with
  | [] => Ok []
  | s :: r =>
      match make s with
      | Err e => Err e
      | Ok p => match make_all r with
                | Err e => Err e
                | Ok ps => Ok (p :: ps)
                end
      end
  end.

(** [[NamedParam.make(s) for s in arg] if arg else []]: [None] and the
    empty sequence are both falsy. *)
Definition rules_of (arg : option (list string)) : result (list NamedParam) :=
  match arg with
  | None => Ok []
  | Some l => make_all l
  end.

Definition __init__ (annotate_optional annotate_named_param : option (list string))
    (annotate_magics' annotate_imprecise_magics' none_return' bool_param' : bool)
  : result AutotypeCommand :=
  match rules_of annotate_optional with
  | Err e => Err e
  | Ok optionals =>
      match rules_of annotate_named_param with
      | Err e => Err e
      | Ok named =>
          Ok (mkCommand
                (mkState optionals named annotate_magics'
                         annotate_imprecise_magics' none_return' bool_param'
                         [false] [false] [false] false)
                [])
      end
  end.

Definition visit_FunctionDef (n : node) : M unit :=
  s <- get_state ;;
  put_state (set_seen_return_statement s (Py.append (seen_return_statement s) false)) ;;
  s <- get_state ;;
  put_state (set_seen_raise_statement s (Py.append (seen_raise_statement s) false)) ;;
  s <- get_state ;;
  put_state (set_seen_yield s (Py.append (seen_yield s) false)).

Definition visit_Return (n : node) : M unit :=
  match n with
  | Return (Some _) =>
      s <- get_state ;;
      l <- lift_index (Py.set_last (seen_return_statement s) true) ;;
      put_state (set_seen_return_statement s l)
  | _ => ret tt
  end.

Definition visit_Raise (n : node) : M unit :=
  s <- get_state ;;
  l <- lift_index (Py.set_last (seen_raise_statement s) true) ;;
  put_state (set_seen_raise_statement s l).

Definition visit_Yield (n : node) : M unit :=
  s <- get_state ;;
  l <- lift_index (Py.set_last (seen_yield s) true) ;;
  put_state (set_seen_yield s l).

Definition visit_Lambda (n : node) : M unit :=
  s <- get_state ;;
  put_state (set_in_lambda s true).

Definition leave_Lambda (original_node updated_node : node) : M node :=
  s <- get_state ;;
  put_state (set_in_lambda s false) ;;
  ret updated_node.

(** [updated_node.with_changes(returns=r)] on a [FunctionDef]. *)
Definition with_returns (n r : node) : node :=
  match n with
  | FunctionDef d f p _ b => FunctionDef d f p (Some r) b
  | _ => n
  end.

(** [updated_node.with_changes(annotation=a)] on a [Param]. *)
Definition with_annotation (n a : node) : node :=
  match n with
  | Param x _ d => Param x (Some a) d
  | _ => n
  end.

Definition pop_seen_return_statement : M bool :=
  s <- get_state ;;
  xl <- lift_index (Py.pop (seen_return_statement s)) ;;
  put_state (set_seen_return_statement s (snd xl)) ;;
  ret (fst xl).

Definition pop_seen_raise_statement : M bool :=
  s <- get_state ;;
  xl <- lift_index (Py.pop (seen_raise_statement s)) ;;
  put_state (set_seen_raise_statement s (snd xl)) ;;
  ret (fst xl).

Definition pop_seen_yield : M bool :=
  s <- get_state ;;
  xl <- lift_index (Py.pop (seen_yield s)) ;;
  put_state (set_seen_yield s (snd xl)) ;;
  ret (fst xl).

(** The hook is only ever called on [FunctionDef] nodes; the last branch
    of the match is there for totality. *)
Definition leave_FunctionDef (original_node updated_node : node) : M node :=
  seen_return <- pop_seen_return_statement ;;
  seen_raise <- pop_seen_raise_statement ;;
  seen_yield' <- pop_seen_yield ;;
  s <- get_state ;;
  match original_node with
  | FunctionDef _ f _ None _ =>
      if none_return s && negb seen_raise && negb seen_return && negb seen_yield'
      then ret (with_returns updated_node (Annotation (Name "None")))
      else
        let imprecise :=
          if annotate_imprecise_magics s then
            match Py.get IMPRECISE_MAGICS f with
            | Some (md, imported_name) =>
                add_needed_import md imported_name ;;
                ret (with_returns updated_node (Annotation (Name imported_name)))
            | None => ret updated_node
            end
          else ret updated_node in
        if annotate_magics s then
          match Py.get SIMPLE_MAGICS f with
          | Some ty => ret (with_returns updated_node (Annotation (Name ty)))
          | None => imprecise
          end
        else imprecise
  | _ => ret updated_node
  end.

Definition _annotate_param (param : NamedParam) (updated_node : node)
    (optional : bool) : M node :=
  add_needed_import (module param) (type_name param) ;;
  (if optional then add_needed_import "typing" "Optional" else ret tt) ;;
  let type_name' := Name (type_name param) in
  let anno :=
    if optional
    then Subscript (Name "Optional") [SubscriptElement (Index type_name')]
    else type_name' in
  ret (with_annotation updated_node (Annotation anno)).

(** The two [for] loops of [leave_Param]: return at the first rule whose
    name is the parameter's, fall through to [return updated_node]. *)
Fixpoint scan_rules (rules : list NamedParam) (x : string)
    (updated_node : node) (optional : bool) : M node :=
  match rules with
  | [] => ret updated_node
  | r :: rest =>
      if String.eqb x (name r)
      then _annotate_param r updated_node optional
      else scan_rules rest x updated_node optional
  end.

(** [default is not None and isinstance(default, Name) and
    default.value in ("True", "False")]. *)
Definition default_is_bool (default : option node) : bool :=
  match default with
  | Some (Name v) => String.eqb v "True" || String.eqb v "False"
  | _ => false
  end.

Definition default_is_none (default : option node) : bool :=
  match default with
  | Some (Name v) => String.eqb v "None"
  | _ => false
  end.

(** Called on [Param] nodes only; the last branch is there for totality. *)
Definition leave_Param (original_node updated_node : node) : M node :=
  s <- get_state ;;
  if in_lambda s then ret updated_node
  else
    match original_node with
    | Param x (Some _) _ => ret updated_node
    | Param x None default =>
        if bool_param s && default_is_bool default
        then ret (with_annotation updated_node (Annotation (Name "bool")))
        else if default_is_none default
        then scan_rules (annotate_optionals s) x updated_node true
        else match default with
             | None => scan_rules (annotate_named_params s) x updated_node false
             | Some _ => ret updated_node
             end
    | _ => ret updated_node
    end.

(** ** The traversal ([CSTNode.visit] with a transformer)

    [visit_X] (when the command has one), then the children in field
    order, then [leave_X] on the original node and the node rebuilt from
    the visited children.  None of the [visit_X] hooks returns [False], so
    children are always visited.  The checks libcst runs when it rebuilds a
    node (it refuses a [Lambda] whose parameter carries an annotation) are
    not part of this model: the traversal returns what the hooks return. *)

Definition visit_optional (f : node -> M node) (o : option node) : M (option node) :=
  match o with
  | None => ret None
  | Some n => n' <- f n ;; ret (Some n')
  end.

Definition visit_sequence (f : node -> M node) : list node -> M (list node) :=
  fix go (l : list node) : M (list node) :=
    match l with
    | [] => ret []
    | n :: r => n' <- f n ;; r' <- go r ;; ret (n' :: r')
    end.

Fixpoint visit (n : node) : M node :=
  match n with
  | Name v => ret (Name v)
  | Annotation a => a' <- visit a ;; ret (Annotation a')
  | Index v => v' <- visit v ;; ret (Index v')
  | SubscriptElement sl => sl' <- visit sl ;; ret (SubscriptElement sl')
  | Subscript v sl =>
      v' <- visit v ;;
      sl' <- visit_sequence visit sl ;;
      ret (Subscript v' sl')
  | Param x a d =>
      a' <- visit_optional visit a ;;
      d' <- visit_optional visit d ;;
      leave_Param n (Param x a' d')
  | Parameters ps =>
      ps' <- visit_sequence visit ps ;;
      ret (Parameters ps')
  | FunctionDef ds f ps r b =>
      visit_FunctionDef n ;;
      ds' <- visit_sequence visit ds ;;
      ps' <- visit ps ;;
      r' <- visit_optional visit r ;;
      b' <- visit b ;;
      leave_FunctionDef n (FunctionDef ds' f ps' r' b')
  | Lambda ps b =>
      visit_Lambda n ;;
      ps' <- visit ps ;;
      b' <- visit b ;;
      leave_Lambda n (Lambda ps' b')
  | Return v =>
      visit_Return n ;;
      v' <- visit_optional visit v ;;
      ret (Return v')
  | Raise e c =>
      visit_Raise n ;;
      e' <- visit_optional visit e ;;
      c' <- visit_optional visit c ;;
      ret (Raise e' c')
  | Yield v =>
      visit_Yield n ;;
      v' <- visit_optional visit v ;;
      ret (Yield v')
  | Other k cs =>
      cs' <- visit_sequence visit cs ;;
      ret (Other k cs')
  end.

(** [transform_module]: one traversal of the tree; the result is the new
    tree and the imports requested on the way. *)
Definition transform_module (cmd : AutotypeCommand) (tree : node)
  : result (node * list (string * string)) :=
  match visit tree cmd with
  | Ok (tree', cmd') => Ok (tree', context cmd')
  | Err e => Err e
  end.

(** One invocation of the codemod: build the command, then transform. *)
Definition codemod (annotate_optional annotate_named_param : option (list string))
    (annotate_magics' annotate_imprecise_magics' none_return' bool_param' : bool)
    (tree : node) : result (node * list (string * string)) :=
  match __init__ annotate_optional annotate_named_param annotate_magics'
                 annotate_imprecise_magics' none_return' bool_param' with
  | Err e => Err e
  | Ok cmd => transform_module cmd tree
  end.

(** * Definitions used to state the properties *)

(** The rule strings an argument of [__init__] carries. *)
Definition strings_of (arg : option (list string)) : list string :=
  match arg with
  | None => []
  | Some l => l
  end.

(** ** Induction over syntax trees *)

Definition opt_all (P : node -> Prop) (o : option node) : Prop :=
  match o with
  | Some n => P n
  | None => True
  end.

Section NodeInduction.
Variable P : node -> Prop.
Hypothesis HName : forall v, P (Name v).
Hypothesis HAnnotation : forall a, P a -> P (Annotation a).
Hypothesis HIndex : forall v, P v -> P (Index v).
Hypothesis HSubscriptElement : forall sl, P sl -> P (SubscriptElement sl).
Hypothesis HSubscript : forall v sl, P v -> Forall P sl -> P (Subscript v sl).
Hypothesis HParam : forall x a d, opt_all P a -> opt_all P d -> P (Param x a d).
Hypothesis HParameters : forall ps, Forall P ps -> P (Parameters ps).
Hypothesis HFunctionDef : forall ds f ps r b,
    Forall P ds -> P ps -> opt_all P r -> P b -> P (FunctionDef ds f ps r b).
Hypothesis HLambda : forall ps b, P ps -> P b -> P (Lambda ps b).
Hypothesis HReturn : forall v, opt_all P v -> P (Return v).
Hypothesis HRaise : forall e c, opt_all P e -> opt_all P c -> P (Raise e c).
Hypothesis HYield : forall v, opt_all P v -> P (Yield v).
Hypothesis HOther : forall k cs, Forall P cs -> P (Other k cs).

Fixpoint node_induction (n : node) : P n :=
  let many := fix many (l : list node) : Forall P l :=
    match l with
    | [] => Forall_nil P
    | x :: r => Forall_cons x (node_induction x) (many r)
    end in
  let maybe := fun o : option node =>
    match o return opt_all P o with
    | Some x => node_induction x
    | None => I
    end in
  match n with
  | Name v => HName v
  | Annotation a => HAnnotation (node_induction a)
  | Index v => HIndex (node_induction v)
  | SubscriptElement sl => HSubscriptElement (node_induction sl)
  | Subscript v sl => HSubscript (node_induction v) (many sl)
  | Param x a d => HParam x a d (maybe a) (maybe d)
  | Parameters ps => HParameters (many ps)
  | FunctionDef ds f ps r b =>
      HFunctionDef f r (many ds) (node_induction ps) (maybe r) (node_induction b)
  | Lambda ps b => HLambda (node_induction ps) (node_induction b)
  | Return v => HReturn v (maybe v)
  | Raise e c => HRaise e c (maybe e) (maybe c)
  | Yield v => HYield v (maybe v)
  | Other k cs => HOther k (many cs)
  end.

End NodeInduction.

(** ** What a scope records

    The three control-flow facts, and which of them occur in a tree outside
    of any function definition nested in it: the statements of loops,
    conditionals, [try] blocks and lambdas count; a nested [FunctionDef]
    counts for nothing; a bare [return] counts for nothing. *)

Inductive fact : Type := SeenReturn | SeenRaise | SeenYield.

Definition opt_any (p : node -> bool) (o : option node) : bool :=
  match o with
  | Some n => p n
  | None => false
  end.

Definition is_return (k : fact) (v : option node) : bool :=
  match k, v with
  | SeenReturn, Some _ => true
  | _, _ => false
  end.

Definition is_raise (k : fact) : bool :=
  match k with SeenRaise => true | _ => false end.

Definition is_yield (k : fact) : bool :=
  match k with SeenYield => true | _ => false end.

Fixpoint records (k : fact) (n : node) : bool :=
  match n with
  | Name _ => false
  | Annotation a => records k a
  | Index v => records k v
  | SubscriptElement sl => records k sl
  | Subscript v sl => records k v || existsb (records k) sl
  | Param _ a d => opt_any (records k) a || opt_any (records k) d
  | Parameters ps => existsb (records k) ps
  | FunctionDef _ _ _ _ _ => false
  | Lambda ps b => records k ps || records k b
  | Return v => is_return k v || opt_any (records k) v
  | Raise e c => is_raise k || opt_any (records k) e || opt_any (records k) c
  | Yield v => is_yield k || opt_any (records k) v
  | Other _ cs => existsb (records k) cs
  end.

(** The facts in the scope of a function definition itself: everything under
    its decorators, parameters, return annotation and body that is not
    inside a further nested definition. *)
Definition scope_records (k : fact) (ds : list node) (ps : node)
    (r : option node) (b : node) : bool :=
  existsb (records k) ds || records k ps || opt_any (records k) r || records k b.

(** A computation that, from any state whose three stacks are non-empty,
    succeeds, touches the stacks only by or-ing [fr], [fe], [fy] into their
    top frames, and whose result, import requests and final lambda flag do
    not depend on what the stacks hold. *)
Definition framed {A : Type} (ao an : list NamedParam) (am ai nr bp : bool)
    (m : M A) (fr fe fy : bool) : Prop :=
  forall l : bool, exists (a : A) (l' : bool) (imps : list (string * string)),
    forall (R : list bool) (r : bool) (E : list bool) (e : bool)
           (Y : list bool) (y : bool) (ctx : list (string * string)),
      m (mkCommand (mkState ao an am ai nr bp (R ++ [r]) (E ++ [e]) (Y ++ [y]) l) ctx)
      = Ok (a, mkCommand (mkState ao an am ai nr bp
                                  (R ++ [r || fr]) (E ++ [e || fe]) (Y ++ [y || fy]) l')
                         (ctx ++ imps)).

(** The traversal of [n] is framed, with the facts [n] records. *)
Definition visits (ao an : list NamedParam) (am ai nr bp : bool) (n : node) : Prop :=
  framed ao an am ai nr bp (visit n)
         (records SeenReturn n) (records SeenRaise n) (records SeenYield n).

(** The annotation [Optional[T]]. *)
Definition optional_of (ty : string) : node :=
  Annotation (Subscript (Name "Optional") [SubscriptElement (Index (Name ty))]).

(** [lambda a=(lambda: 0), flag=True: 0]. *)
Definition lambda_in_default : node :=
  Lambda
    (Parameters
       [ Param "a" None (Some (Lambda (Parameters []) (Other "Integer" [])));
         Param "flag" None (Some (Name "True")) ])
    (Other "Integer" []).

(** A tree the traversal returns as it is, in every state and without
    touching the state. *)
Definition stable (n : node) : Prop :=
  forall c : AutotypeCommand, visit n c = Ok (n, c).

(** The state of a command under another list of import requests. *)
Definition with_context (c : AutotypeCommand) (ctx : list (string * string))
  : AutotypeCommand :=
  mkCommand (state c) ctx.

(** A second traversal, of the result of a first one from the same state,
    changes nothing and requests nothing. *)
Definition settled (n : node) : Prop :=
  forall (c : AutotypeCommand) (n' : node) (c' : AutotypeCommand),
    visit n c = Ok (n', c') ->
    forall ctx, visit n' (with_context c ctx) = Ok (n', with_context c' ctx).

(** Two trees with the same head; for [Name] nodes, the same name. *)
Definition same_head (n n' : node) : Prop :=
  match n, n' with
  | Name v, Name v' => v = v'
  | Annotation _, Annotation _ => True
  | Index _, Index _ => True
  | SubscriptElement _, SubscriptElement _ => True
  | Subscript _ _, Subscript _ _ => True
  | Param _ _ _, Param _ _ _ => True
  | Parameters _, Parameters _ => True
  | FunctionDef _ _ _ _ _, FunctionDef _ _ _ _ _ => True
  | Lambda _ _, Lambda _ _ => True
  | Return _, Return _ => True
  | Raise _ _, Raise _ _ => True
  | Yield _, Yield _ => True
  | Other _ _, Other _ _ => True
  | _, _ => False
  end.

(** A module with a class whose methods exercise every rule:
<<
class C:
    def __len__(self, x=None, flag=True):
        return x
    def __iter__(self):
        yield (lambda y=None: y)
    def run(self, n):
        if n:
            pass
>>
*)
Definition example_module : node :=
  Other "Module"
    [ Other "ClassDef"
        [ Name "C";
          FunctionDef [] "__len__"
            (Parameters [ Param "self" None None;
                          Param "x" None (Some (Name "None"));
                          Param "flag" None (Some (Name "True")) ])
            None
            (Other "IndentedBlock" [Return (Some (Name "x"))]);
          FunctionDef [] "__iter__"
            (Parameters [Param "self" None None])
            None
            (Other "IndentedBlock"
               [Yield (Some (Lambda (Parameters [Param "y" None (Some (Name "None"))])
                                    (Name "y")))]);
          FunctionDef [] "run"
            (Parameters [Param "self" None None; Param "n" None None])
            None
            (Other "IndentedBlock" [Other "If" [Name "n"; Other "Pass" []]]) ] ].

(** [example_module] as the codemod returns it with every toggle on, the
    Optional rules [x:mymod.Foo], [y:m.Y] and the named-param rule
    [n:numbers.Number]. *)
Definition example_module_annotated : node :=
  Other "Module"
    [ Other "ClassDef"
        [ Name "C";
          FunctionDef [] "__len__"
            (Parameters [ Param "self" None None;
                          Param "x" (Some (optional_of "Foo")) (Some (Name "None"));
                          Param "flag" (Some (Annotation (Name "bool")))
                                (Some (Name "True")) ])
            (Some (Annotation (Name "int")))
            (Other "IndentedBlock" [Return (Some (Name "x"))]);
          FunctionDef [] "__iter__"
            (Parameters [Param "self" None None])
            (Some (Annotation (Name "Iterator")))
            (Other "IndentedBlock"
               [Yield (Some (Lambda (Parameters [Param "y" None (Some (Name "None"))])
                                    (Name "y")))]);
          FunctionDef [] "run"
            (Parameters [ Param "self" None None;
                          Param "n" (Some (Annotation (Name "Number"))) None ])
            (Some (Annotation (Name "None")))
            (Other "IndentedBlock" [Other "If" [Name "n"; Other "Pass" []]]) ] ].

(** A tree without any node the command has a hook for, such as an import
    statement. *)
Fixpoint inert (n : node) : bool :=
  match n with
  | Name _ => true
  | Annotation a => inert a
  | Index v => inert v
  | SubscriptElement sl => inert sl
  | Subscript v sl => inert v && forallb inert sl
  | Other _ cs => forallb inert cs
  | _ => false
  end.

(** * Definitions used to state further properties *)

(** The annotation [_annotate_param] builds for a rule. *)
Definition rule_annotation (r : NamedParam) (optional : bool) : node :=
  if optional then optional_of (type_name r) else Annotation (Name (type_name r)).

(** The imports [_annotate_param] requests for a rule, in order. *)
Definition rule_imports (r : NamedParam) (optional : bool) : list (string * string) :=
  if optional
  then [(module r, type_name r); ("typing", "Optional")]
  else [(module r, type_name r)].

(** [rules] holds a rule named [x], and [r] is the first one. *)
Definition first_rule (rules : list NamedParam) (x : string) (r : NamedParam) : Prop :=
  exists pre post,
    rules = pre ++ r :: post /\ Forall (fun q => name q <> x) pre /\ name r = x.

(** The three [pop()] calls of [leave_FunctionDef]: the popped flags and
    the state left, or nothing when one of the stacks is empty. *)
Definition pop_frames (s : State) : option (bool * bool * bool * State) :=
  match Py.pop (seen_return_statement s) with
  | None => None
  | Some (sr, R) =>
      match Py.pop (seen_raise_statement s) with
      | None => None
      | Some (se, E) =>
          match Py.pop (seen_yield s) with
          | None => None
          | Some (sy, Y) =>
              Some (sr, se, sy,
                    mkState (annotate_optionals s) (annotate_named_params s)
                            (annotate_magics s) (annotate_imprecise_magics s)
                            (none_return s) (bool_param s) R E Y (in_lambda s))
          end
      end
  end.

(** The return policy as a table: the type name to attach and the imports
    to request, from the toggles, the popped flags and the function's
    name. *)
Definition return_rule (s : State) (sr se sy : bool) (f : string)
  : option (string * list (string * string)) :=
  if none_return s && negb se && negb sr && negb sy then Some ("None", [])
  else
    match (if annotate_magics s then Py.get SIMPLE_MAGICS f else None) with
    | Some ty => Some (ty, [])
    | None =>
        match (if annotate_imprecise_magics s
               then Py.get IMPRECISE_MAGICS f else None) with
        | Some (md, sym) => Some (sym, [(md, sym)])
        | None => None
        end
    end.




(** The configuration part of two states is the same. *)
Definition same_config (s s' : State) : Prop :=
  annotate_optionals s' = annotate_optionals s
  /\ annotate_named_params s' = annotate_named_params s
  /\ annotate_magics s' = annotate_magics s
  /\ annotate_imprecise_magics s' = annotate_imprecise_magics s
  /\ none_return s' = none_return s
  /\ bool_param s' = bool_param s.

(** The imports a command with state [s] can ask for: [Optional] from
    [typing], an entry of [IMPRECISE_MAGICS], or the (module, type_name) of
    a configured rule. *)
Definition allowed_import (s : State) (i : string * string) : Prop :=
  i = ("typing", "Optional")
  \/ In i (map snd IMPRECISE_MAGICS)
  \/ exists r, In r (annotate_optionals s ++ annotate_named_params s)
               /\ i = (module r, type_name r).

(** A computation that leaves the configuration alone and only appends
    allowed imports to the requests. *)
Definition appends {A : Type} (m : M A) : Prop :=
  forall (c : AutotypeCommand) (a : A) (c' : AutotypeCommand),
    m c = Ok (a, c') ->
    same_config (state c) (state c')
    /\ exists imps, context c' = context c ++ imps
                    /\ Forall (allowed_import (state c)) imps.

(** No rule and no toggle: the configuration of a command built without
    options. *)
Definition no_option (s : State) : Prop :=
  annotate_optionals s = [] /\ annotate_named_params s = []
  /\ annotate_magics s = false /\ annotate_imprecise_magics s = false
  /\ none_return s = false /\ bool_param s = false.

(** Under [no_option], a computation that returns [a0], requests nothing
    and keeps the configuration. *)
Definition idle {A : Type} (m : M A) (a0 : A) : Prop :=
  forall (c : AutotypeCommand) (a : A) (c' : AutotypeCommand),
    no_option (state c) -> m c = Ok (a, c') ->
    a = a0 /\ context c' = context c /\ no_option (state c').

(** A tree without any lambda in it. *)
Fixpoint lambda_free (n : node) : bool :=
  match n with
  | Name _ => true
  | Annotation a => lambda_free a
  | Index v => lambda_free v
  | SubscriptElement sl => lambda_free sl
  | Subscript v sl => lambda_free v && forallb lambda_free sl
  | Param _ a d =>
      match a with Some x => lambda_free x | None => true end
      && match d with Some x => lambda_free x | None => true end
  | Parameters ps => forallb lambda_free ps
  | FunctionDef ds _ ps r b =>
      forallb lambda_free ds && lambda_free ps
      && match r with Some x => lambda_free x | None => true end
      && lambda_free b
  | Lambda _ _ => false
  | Return v => match v with Some x => lambda_free x | None => true end
  | Raise e c =>
      match e with Some x => lambda_free x | None => true end
      && match c with Some x => lambda_free x | None => true end
  | Yield v => match v with Some x => lambda_free x | None => true end
  | Other _ cs => forallb lambda_free cs
  end.

Definition opt_lambda_free (o : option node) : bool :=
  match o with Some x => lambda_free x | None => true end.

(** A computation after which the lambda flag is what it was, and-ed with
    [p]: kept when [p] holds, off otherwise. *)
Definition flag_and {A : Type} (m : M A) (p : bool) : Prop :=
  forall (c : AutotypeCommand) (a : A) (c' : AutotypeCommand),
    m c = Ok (a, c') -> in_lambda (state c') = in_lambda (state c) && p.

(** A parameter node whose annotation slot is empty. *)
Definition unannotated (n : node) : bool :=
  match n with
  | Param _ None _ => true
  | _ => false
  end.

(** A traversal that returns the tree it was given requests nothing. *)
Definition quiet (n : node) : Prop :=
  forall (c c' : AutotypeCommand),
    visit n c = Ok (n, c') -> context c' = context c.

(** * Properties *)

(** ** Python primitives *)

Module PyFacts.
Import Py.

Lemma pop_app {A : Type} (l : list A) (x : A) : pop (l ++ [x]) = Some (x, l).
Proof.
  induction l as [|a l IH]; simpl; [reflexivity|].
  now rewrite IH.
Qed.

Lemma set_last_app {A : Type} (l : list A) (x y : A) :
  set_last (l ++ [x]) y = Some (l ++ [y]).
Proof.
  induction l as [|a l IH]; simpl; [reflexivity|].
  now rewrite IH.
Qed.

Lemma nonempty_snoc {A : Type} (l : list A) :
  l <> [] -> exists l' x, l = l' ++ [x].
Proof.
  intros H. destruct (exists_last H) as [l' [x ->]]. now exists l', x.
Qed.

Lemma split_length (c : ascii) (s : string) :
  List.length (split c s) = S (count c s).
Proof.
  induction s as [|a s IH]; simpl; [reflexivity|].
  destruct (Ascii.eqb a c); simpl.
  - now rewrite IH.
  - destruct (split c s) as [|p ps]; simpl in *; [discriminate | exact IH].
Qed.

Lemma split_none (c : ascii) (s : string) :
  count c s = 0 -> split c s = [s].
Proof.
  induction s as [|a s IH]; simpl; [reflexivity|].
  destruct (Ascii.eqb a c); simpl; [discriminate|].
  intros H. now rewrite (IH H).
Qed.

Lemma split_app (c : ascii) (a b : string) :
  count c a = 0 -> split c (a ++ String c b) = a :: split c b.
Proof.
  induction a as [|x a IH]; simpl.
  - intros _. now rewrite Ascii.eqb_refl.
  - destruct (Ascii.eqb x c); simpl; [discriminate|].
    intros H. now rewrite (IH H).
Qed.

(** Two pieces: the string is the two pieces around one separator, and
    neither piece holds the separator. *)
Lemma split_two (c : ascii) (s a b : string) :
  split c s = [a; b] ->
  s = (a ++ String c b)%string /\ count c a = 0 /\ count c b = 0.
Proof.
  revert a b. induction s as [|x s IH]; simpl; intros a b H; [discriminate|].
  destruct (Ascii.eqb_spec x c) as [->|Hx].
  - injection H as <- Hs.
    assert (Hl := split_length c s). rewrite Hs in Hl. simpl in Hl.
    injection Hl as Hl.
    assert (Hb := split_none c s (eq_sym Hl)). rewrite Hs in Hb.
    injection Hb as <-. simpl. repeat split; auto.
  - destruct (split c s) as [|p ps] eqn:Hs; [discriminate|].
    injection H as <- ->.
    destruct (IH p b eq_refl) as (-> & Ha & Hb).
    simpl. repeat split; auto.
    destruct (Ascii.eqb_spec x c); [contradiction | exact Ha].
Qed.

Lemma rcut_none (c : ascii) (s : string) :
  rcut c s = None <-> count c s = 0.
Proof.
  induction s as [|x s IH]; simpl; [tauto|].
  destruct (rcut c s) as [[a b]|].
  - split; [discriminate|]. intros H.
    assert (count c s = 0) by lia. apply IH in H0. discriminate.
  - destruct (Ascii.eqb x c); simpl.
    + split; discriminate.
    + split; [intros _; now apply IH | reflexivity].
Qed.

Lemma rcut_app (c : ascii) (a b : string) :
  count c b = 0 -> rcut c (a ++ String c b) = Some (a, b).
Proof.
  intros Hb. induction a as [|x a IH]; simpl.
  - apply rcut_none in Hb. rewrite Hb. now rewrite Ascii.eqb_refl.
  - now rewrite IH.
Qed.

Lemma rcut_some (c : ascii) (s a b : string) :
  rcut c s = Some (a, b) -> s = (a ++ String c b)%string /\ count c b = 0.
Proof.
  revert a b. induction s as [|x s IH]; simpl; intros a b H; [discriminate|].
  destruct (rcut c s) as [[a' b']|] eqn:Hs.
  - injection H as <- <-. destruct (IH a' b' eq_refl) as [-> Hb].
    simpl. auto.
  - destruct (Ascii.eqb_spec x c) as [->|Hx]; [|discriminate].
    injection H as <- <-. simpl. split; [reflexivity|].
    now apply rcut_none.
Qed.

Lemma count_app (c : ascii) (a b : string) :
  count c (a ++ b) = count c a + count c b.
Proof.
  induction a as [|x a IH]; simpl; [reflexivity|]. rewrite IH. lia.
Qed.

End PyFacts.

(** ** [NamedParam.make] *)

Section Make.
Import Py PyFacts.

Lemma make_sound (s : string) (p : NamedParam) :
  make s = Ok p ->
  s = (name p ++ String colon (module p ++ String dot (type_name p)))%string
  /\ count colon (name p) = 0
  /\ count colon (module p ++ String dot (type_name p)) = 0
  /\ count dot (type_name p) = 0.
Proof.
  unfold make, unpack2, rsplit1.
  destruct (split colon s) as [|a [|b [|? ?]]] eqn:Hs; try discriminate.
  destruct (rcut dot b) as [[m t]|] eqn:Hb; [|discriminate].
  intros H. injection H as <-. simpl.
  destruct (split_two _ _ Hs) as (-> & Ha & Hb').
  destruct (rcut_some _ _ Hb) as (-> & Ht).
  auto.
Qed.

Lemma make_complete (n m t : string) :
  count colon n = 0 -> count colon m = 0 -> count colon t = 0 ->
  count dot t = 0 ->
  make (n ++ String colon (m ++ String dot t)) = Ok (mkNamedParam n m t).
Proof.
  intros Hn Hm Ht Hd. unfold make.
  rewrite (split_app _ _ _ Hn).
  rewrite split_none.
  - simpl. unfold rsplit1. now rewrite (rcut_app _ _ _ Hd).
  - rewrite count_app. simpl. rewrite Hm, Ht. reflexivity.
Qed.

Lemma make_error_kind (s : string) (e : exn) : make s = Err e -> e = ValueError.
Proof.
  unfold make, unpack2, rsplit1.
  destruct (split colon s) as [|a [|b [|? ?]]]; try congruence.
  destruct (rcut dot b) as [[m t]|]; congruence.
Qed.

Lemma make_no_colon (s : string) : count colon s = 0 -> make s = Err ValueError.
Proof.
  intros H. unfold make. now rewrite (split_none _ _ H).
Qed.

Lemma make_many_colons (s : string) :
  2 <= count colon s -> make s = Err ValueError.
Proof.
  intros H. unfold make, unpack2.
  assert (Hl := split_length colon s).
  destruct (split colon s) as [|a [|b [|? ?]]]; simpl in Hl; try reflexivity; lia.
Qed.

Lemma make_no_dot (n tp : string) :
  count dot tp = 0 -> make (n ++ String colon tp) = Err ValueError.
Proof.
  intros Hd.
  destruct (make (n ++ String colon tp)) as [p|e] eqn:Hm.
  - exfalso. destruct (make_sound _ Hm) as (Hs & Hn & Hc & Ht).
    assert (Hcount : count colon (n ++ String colon tp) = 1).
    { rewrite Hs at 1. rewrite count_app. simpl. rewrite Hn.
      simpl in *. lia. }
    rewrite count_app in Hcount. simpl in Hcount.
    assert (Hn0 : count colon n = 0) by lia.
    assert (Hsp := split_app colon n tp Hn0).
    rewrite Hs in Hsp at 1. rewrite (split_app _ _ _ Hn) in Hsp.
    injection Hsp as Hnm Hrest.
    rewrite (split_none _ _ Hc) in Hrest.
    assert (Htp : count colon tp = 0) by lia.
    rewrite (split_none _ _ Htp) in Hrest. injection Hrest as <-.
    rewrite count_app in Hd. simpl in Hd. lia.
  - now rewrite (make_error_kind _ Hm).
Qed.

(** C7: a rule string [NAME:MODULE.TYPE] is cut at its colon and then at
    the last dot of the type path, so that the module keeps its own dots:
    ["a:b.C"] gives name [a], module [b], type [C]; ["a:b.c.D"] gives
    module [b.c] and type [D]; an input without a colon raises. *)
Theorem make_colon_then_last_dot :
  (forall n m t : string,
      count colon n = 0 -> count colon m = 0 -> count colon t = 0 ->
      count dot t = 0 ->
      make (n ++ ":" ++ m ++ "." ++ t) = Ok (mkNamedParam n m t))
  /\ make "a:b.C" = Ok (mkNamedParam "a" "b" "C")
  /\ make "a:b.c.D" = Ok (mkNamedParam "a" "b.c" "D")
  /\ make "a.b" = Err ValueError
  /\ (forall s : string, count colon s = 0 -> make s = Err ValueError).
Proof.
  split; [|repeat split; try reflexivity; exact make_no_colon].
  intros n m t Hn Hm Ht Hd. exact (make_complete n m t Hn Hm Ht Hd).
Qed.

Lemma make_colon_then_last_dot_witness :
  make "foo:a.b.Baz" = Ok (mkNamedParam "foo" "a.b" "Baz")
  /\ make "nocolon.here" = Err ValueError.
Proof.
  split.
  - apply (proj1 make_colon_then_last_dot "foo" "a.b" "Baz"); reflexivity.
  - apply (proj2 (proj2 (proj2 (proj2 make_colon_then_last_dot)))); reflexivity.
Defined.

(** Against C8 as stated: with two colons the unpacking of
    [input.split(":")] gets three values and raises, although the part
    after the first colon has a dot. *)
Lemma make_two_colons_fails :
  make "a:b:c.D" = Err ValueError
  /\ ~ (exists p, make "a:b:c.D" = Ok p /\ name p = "a").
Proof.
  split; [reflexivity|]. intros [p [H _]]. vm_compute in H. discriminate.
Qed.

(** C8 (amended): parsing raises exactly when the input does not hold
    exactly one colon, or the type path after the colon holds no dot; it
    returns a rule on every other input, and then the name is the text
    before the colon and the type name the text after the last dot. *)
Theorem make_fails_iff (s : string) :
  (make s = Err ValueError <->
     count colon s <> 1
     \/ exists n tp : string, s = (n ++ String colon tp)%string /\ count dot tp = 0)
  /\ ((exists p, make s = Ok p) \/ make s = Err ValueError)
  /\ (forall p, make s = Ok p ->
        count colon s = 1
        /\ s = (name p ++ ":" ++ module p ++ "." ++ type_name p)%string
        /\ count colon (name p) = 0 /\ count dot (type_name p) = 0).
Proof.
  split; [|split].
  - split.
    + intros Hf. destruct (Nat.eq_dec (count colon s) 1) as [H1|H1]; [|now left].
      right. assert (Hl := split_length colon s). rewrite H1 in Hl.
      destruct (split colon s) as [|a [|b [|? ?]]] eqn:Hs; try discriminate.
      destruct (split_two _ _ Hs) as (Heq & _ & _).
      exists a, b. split; [exact Heq|].
      revert Hf. unfold make. rewrite Hs. simpl.
      unfold rsplit1. destruct (rcut dot b) as [[m t]|] eqn:Hb; [discriminate|].
      intros _. now apply rcut_none.
    + intros [Hc | (n & tp & -> & Hd)].
      * destruct (count colon s) as [|[|k]] eqn:E.
        -- now apply make_no_colon.
        -- contradiction.
        -- apply make_many_colons. lia.
      * now apply make_no_dot.
  - destruct (make s) as [p|e] eqn:Hm.
    + left. now exists p.
    + right. now rewrite (make_error_kind _ Hm).
  - intros p Hm. destruct (make_sound _ Hm) as (Hs & Hn & Hc & Ht).
    repeat split; auto.
    rewrite Hs. rewrite count_app. simpl. rewrite Hn.
    simpl in Hc. rewrite Hc. reflexivity.
Qed.

Lemma make_fails_iff_witness :
  make "a:bC" = Err ValueError
  /\ (count colon "a:b.c.D" = 1 /\ name (mkNamedParam "a" "b.c" "D") = "a").
Proof.
  split.
  - apply (proj2 (proj1 (make_fails_iff "a:bC"))).
    right. exists "a", "bC". split; reflexivity.
  - destruct (proj2 (proj2 (make_fails_iff "a:b.c.D"))
                (mkNamedParam "a" "b.c" "D") eq_refl) as (H1 & _).
    split; [exact H1 | reflexivity].
Defined.

End Make.

(** ** Construction of the command *)

Lemma make_all_malformed (l : list string) :
  (exists s, In s l /\ make s = Err ValueError) -> make_all l = Err ValueError.
Proof.
  intros (s & Hin & Hs). induction l as [|x l IH]; simpl in *; [contradiction|].
  destruct Hin as [->|Hin].
  - now rewrite Hs.
  - destruct (make x) as [p|e] eqn:Hx.
    + now rewrite (IH Hin).
    + now rewrite (make_error_kind _ Hx).
Qed.

Lemma make_all_wellformed (l : list string) :
  (forall s, In s l -> exists p, make s = Ok p) ->
  exists ps, make_all l = Ok ps /\ List.length ps = List.length l.
Proof.
  induction l as [|x l IH]; simpl; intros H.
  - now exists [].
  - destruct (H x (or_introl eq_refl)) as [p Hp]. rewrite Hp.
    destruct IH as (ps & -> & Hl); [intros s Hs; apply H; now right|].
    exists (p :: ps). simpl. now rewrite Hl.
Qed.

Lemma rules_of_malformed (arg : option (list string)) :
  (exists s, In s (strings_of arg) /\ make s = Err ValueError) ->
  rules_of arg = Err ValueError.
Proof.
  destruct arg as [l|]; simpl.
  - apply make_all_malformed.
  - intros (s & [] & _).
Qed.

Lemma rules_of_error_kind (arg : option (list string)) (e : exn) :
  rules_of arg = Err e -> e = ValueError.
Proof.
  destruct arg as [l|]; simpl; [|discriminate].
  induction l as [|x l IH]; simpl; [discriminate|].
  destruct (make x) as [p|e'] eqn:Hx.
  - destruct (make_all l); [discriminate|]. intros H. apply IH. congruence.
  - intros H. injection H as <-. exact (make_error_kind _ Hx).
Qed.

(** C9: a malformed rule string among the optional-param or named-param
    rules makes [__init__] raise, so the invocation fails before any tree
    is traversed: no tree, transformed or not, comes out of it. *)
Theorem malformed_rule_fails_at_construction
    (annotate_optional annotate_named_param : option (list string))
    (am ai nr bp : bool) :
  (exists s, In s (strings_of annotate_optional ++ strings_of annotate_named_param)
             /\ make s = Err ValueError) ->
  __init__ annotate_optional annotate_named_param am ai nr bp = Err ValueError
  /\ forall tree : node,
      codemod annotate_optional annotate_named_param am ai nr bp tree
      = Err ValueError.
Proof.
  intros (s & Hin & Hs).
  assert (Hinit : __init__ annotate_optional annotate_named_param am ai nr bp
                  = Err ValueError).
  { unfold __init__. apply in_app_or in Hin. destruct Hin as [Hin|Hin].
    - rewrite rules_of_malformed; [reflexivity | now exists s].
    - destruct (rules_of annotate_optional) as [os|e] eqn:Ho.
      + rewrite rules_of_malformed; [reflexivity | now exists s].
      + now rewrite (rules_of_error_kind _ Ho). }
  split; [exact Hinit|].
  intros tree. unfold codemod. now rewrite Hinit.
Qed.

Lemma malformed_rule_fails_at_construction_witness :
  codemod (Some ["x:m.T"]) (Some ["y:m.U"; "z.Q"]) true true true true
          (Other "Module" [FunctionDef [] "f" (Parameters []) None (Other "Pass" [])])
  = Err ValueError.
Proof.
  apply (malformed_rule_fails_at_construction
           (Some ["x:m.T"]) (Some ["y:m.U"; "z.Q"]) true true true true).
  exists "z.Q". split; [simpl; auto | reflexivity].
Defined.

(** With well-formed rules the construction succeeds, with one rule per
    string, in the order given. *)
Lemma wellformed_rules_construct
    (annotate_optional annotate_named_param : option (list string))
    (am ai nr bp : bool) :
  (forall s, In s (strings_of annotate_optional ++ strings_of annotate_named_param) ->
             exists p, make s = Ok p) ->
  exists os ns,
    __init__ annotate_optional annotate_named_param am ai nr bp
    = Ok (mkCommand (mkState os ns am ai nr bp [false] [false] [false] false) [])
    /\ List.length os = List.length (strings_of annotate_optional)
    /\ List.length ns = List.length (strings_of annotate_named_param).
Proof.
  intros H. unfold __init__.
  assert (Ho : exists os, rules_of annotate_optional = Ok os
                          /\ List.length os = List.length (strings_of annotate_optional)).
  { destruct annotate_optional as [l|]; simpl; [|now exists []].
    apply make_all_wellformed. intros s Hs. apply H. apply in_or_app. now left. }
  assert (Hn : exists ns, rules_of annotate_named_param = Ok ns
                          /\ List.length ns = List.length (strings_of annotate_named_param)).
  { destruct annotate_named_param as [l|]; simpl; [|now exists []].
    apply make_all_wellformed. intros s Hs. apply H. apply in_or_app. now right. }
  destruct Ho as (os & -> & Hol). destruct Hn as (ns & -> & Hnl).
  now exists os, ns.
Qed.

(** ** The traversal and the three stacks *)

Section Frames.
Variables (ao an : list NamedParam) (am ai nr bp : bool).

Local Abbreviation st := (mkState ao an am ai nr bp).
Local Abbreviation Framed := (framed ao an am ai nr bp).

Lemma framed_ret {A : Type} (a : A) : Framed (ret a) false false false.
Proof.
  intros l. exists a, l, []. intros.
  unfold ret. now rewrite !orb_false_r, app_nil_r.
Qed.

Lemma framed_bind {A B : Type} (m : M A) (k : A -> M B)
    (f1 f2 f3 g1 g2 g3 : bool) :
  Framed m f1 f2 f3 -> (forall a, Framed (k a) g1 g2 g3) ->
  Framed (bind m k) (f1 || g1) (f2 || g2) (f3 || g3).
Proof.
  intros Hm Hk l.
  destruct (Hm l) as (a & l1 & i1 & H1).
  destruct (Hk a l1) as (b & l2 & i2 & H2).
  exists b, l2, (i1 ++ i2). intros.
  unfold bind. rewrite H1, H2. now rewrite !orb_assoc, app_assoc.
Qed.

Lemma framed_flags {A : Type} (m : M A) (f1 f2 f3 g1 g2 g3 : bool) :
  Framed m f1 f2 f3 -> f1 = g1 -> f2 = g2 -> f3 = g3 -> Framed m g1 g2 g3.
Proof. now intros H <- <- <-. Qed.

Lemma framed_add_needed_import (md obj : string) :
  Framed (add_needed_import md obj) false false false.
Proof.
  intros l. exists tt, l, [(md, obj)]. intros.
  unfold add_needed_import. simpl. now rewrite !orb_false_r.
Qed.

Lemma framed_annotate_param (p : NamedParam) (u : node) (optional : bool) :
  Framed (_annotate_param p u optional) false false false.
Proof.
  unfold _annotate_param.
  eapply framed_flags.
  - eapply framed_bind; [apply framed_add_needed_import|]. intros _.
    eapply framed_bind.
    + destruct optional; [apply framed_add_needed_import | apply framed_ret].
    + intros _. apply framed_ret.
  - reflexivity.
  - reflexivity.
  - reflexivity.
Qed.

Lemma framed_scan_rules (rules : list NamedParam) (x : string) (u : node)
    (optional : bool) :
  Framed (scan_rules rules x u optional) false false false.
Proof.
  induction rules as [|r rules IH]; simpl.
  - apply framed_ret.
  - destruct (String.eqb x (name r)); [apply framed_annotate_param | exact IH].
Qed.

Lemma framed_leave_Param (o u : node) : Framed (leave_Param o u) false false false.
Proof.
  intros l.
  assert (Hret : Framed (ret u) false false false) by apply framed_ret.
  destruct l.
  { destruct (Hret true) as (a & l' & imps & H). exists a, l', imps. exact H. }
  destruct o as [ | | | | |x [a|] d| | | | | | | ];
    try (destruct (Hret false) as (a0 & l' & imps & H); exists a0, l', imps; exact H).
  unfold leave_Param, bind, get_state. cbn [state in_lambda bool_param].
  destruct (bp && default_is_bool d).
  { apply (framed_ret (with_annotation u (Annotation (Name "bool"))) false). }
  destruct (default_is_none d).
  { apply (framed_scan_rules ao x u true false). }
  destruct d.
  - apply (Hret false).
  - apply (framed_scan_rules an x u false false).
Qed.

Lemma framed_visit_Lambda (n : node) : Framed (visit_Lambda n) false false false.
Proof.
  intros l. exists tt, true, []. intros.
  unfold visit_Lambda, bind, get_state, put_state, set_in_lambda. simpl.
  now rewrite !orb_false_r, app_nil_r.
Qed.

Lemma framed_leave_Lambda (o u : node) : Framed (leave_Lambda o u) false false false.
Proof.
  intros l. exists u, false, []. intros.
  unfold leave_Lambda, bind, get_state, put_state, set_in_lambda, ret. simpl.
  now rewrite !orb_false_r, app_nil_r.
Qed.

Lemma framed_visit_Return (v : option node) :
  Framed (visit_Return (Return v)) (is_return SeenReturn v) false false.
Proof.
  intros l. exists tt, l, []. intros.
  destruct v as [v|]; simpl.
  - unfold bind, get_state, lift_index, put_state, set_seen_return_statement. simpl.
    rewrite PyFacts.set_last_app. simpl.
    now rewrite !orb_false_r, orb_true_r, app_nil_r.
  - unfold ret. now rewrite !orb_false_r, app_nil_r.
Qed.

Lemma framed_visit_Raise (n : node) : Framed (visit_Raise n) false true false.
Proof.
  intros l. exists tt, l, []. intros.
  unfold visit_Raise, bind, get_state, lift_index, put_state, set_seen_raise_statement.
  simpl. rewrite PyFacts.set_last_app. simpl.
  now rewrite !orb_false_r, orb_true_r, app_nil_r.
Qed.

Lemma framed_visit_Yield (n : node) : Framed (visit_Yield n) false false true.
Proof.
  intros l. exists tt, l, []. intros.
  unfold visit_Yield, bind, get_state, lift_index, put_state, set_seen_yield.
  simpl. rewrite PyFacts.set_last_app. simpl.
  now rewrite !orb_false_r, orb_true_r, app_nil_r.
Qed.

Lemma visit_FunctionDef_pushes (n : node) (R E Y : list bool) (l : bool)
    (ctx : list (string * string)) :
  visit_FunctionDef n (mkCommand (st R E Y l) ctx)
  = Ok (tt, mkCommand (st (R ++ [false]) (E ++ [false]) (Y ++ [false]) l) ctx).
Proof. reflexivity. Qed.

(** Whatever it decides, [leave_FunctionDef] takes one frame off each
    stack, and its decision depends on the three popped flags only. *)
Lemma leave_FunctionDef_pops (o u : node) (a b c l : bool) :
  exists (n' : node) (imps : list (string * string)),
    forall (R E Y : list bool) (ctx : list (string * string)),
      leave_FunctionDef o u
        (mkCommand (st (R ++ [a]) (E ++ [b]) (Y ++ [c]) l) ctx)
      = Ok (n', mkCommand (st R E Y l) (ctx ++ imps)).
Proof.
  assert (Hpop : forall k : bool -> bool -> bool -> M node,
             (exists n' imps, forall R E Y ctx,
                 k a b c (mkCommand (st R E Y l) ctx)
                 = Ok (n', mkCommand (st R E Y l) (ctx ++ imps))) ->
             exists n' imps, forall R E Y ctx,
               (x <- pop_seen_return_statement ;; y <- pop_seen_raise_statement ;;
                z <- pop_seen_yield ;; k x y z)
                 (mkCommand (st (R ++ [a]) (E ++ [b]) (Y ++ [c]) l) ctx)
               = Ok (n', mkCommand (st R E Y l) (ctx ++ imps))).
  { intros k (n' & imps & H). exists n', imps. intros.
    unfold bind, pop_seen_return_statement, pop_seen_raise_statement, pop_seen_yield,
      bind, get_state, lift_index, put_state, ret. cbn [state seen_return_statement].
    rewrite PyFacts.pop_app. cbn. rewrite PyFacts.pop_app. cbn.
    rewrite PyFacts.pop_app. cbn. apply H. }
  unfold leave_FunctionDef.
  apply (Hpop (fun x y z => s <- get_state ;; _)).
  unfold bind, get_state. cbn [state none_return annotate_magics annotate_imprecise_magics].
  assert (Hret : forall n' : node, exists n'' imps, forall R E Y ctx,
               ret n' (mkCommand (st R E Y l) ctx)
               = Ok (n'', mkCommand (st R E Y l) (ctx ++ imps))).
  { intros n'. exists n', []. intros. unfold ret. now rewrite app_nil_r. }
  destruct o as [ | | | | | | |ds f ps [r|] bd| | | | | ]; try apply Hret.
  destruct (nr && negb b && negb a && negb c); [apply Hret|].
  assert (Himp : exists n'' imps, forall R E Y ctx,
             (if ai
              then match Py.get IMPRECISE_MAGICS f with
                   | Some (md, imported_name) =>
                       add_needed_import md imported_name ;;
                       ret (with_returns u (Annotation (Name imported_name)))
                   | None => ret u
                   end
              else ret u) (mkCommand (st R E Y l) ctx)
             = Ok (n'', mkCommand (st R E Y l) (ctx ++ imps))).
  { destruct ai; [|apply Hret].
    destruct (Py.get IMPRECISE_MAGICS f) as [[md sym]|]; [|apply Hret].
    exists (with_returns u (Annotation (Name sym))), [(md, sym)]. reflexivity. }
  destruct am; [|exact Himp].
  destruct (Py.get SIMPLE_MAGICS f); [apply Hret | exact Himp].
Qed.

Local Abbreviation Visits := (visits ao an am ai nr bp).

Lemma framed_visit_optional (o : option node) :
  opt_all Visits o ->
  Framed (visit_optional visit o) (opt_any (records SeenReturn) o)
         (opt_any (records SeenRaise) o) (opt_any (records SeenYield) o).
Proof.
  destruct o as [n|]; simpl; intros H.
  - eapply framed_flags.
    + eapply framed_bind; [exact H|]. intros a. apply framed_ret.
    + apply orb_false_r.
    + apply orb_false_r.
    + apply orb_false_r.
  - apply framed_ret.
Qed.

Lemma framed_visit_sequence (ns : list node) :
  Forall Visits ns ->
  Framed (visit_sequence visit ns) (existsb (records SeenReturn) ns)
         (existsb (records SeenRaise) ns) (existsb (records SeenYield) ns).
Proof.
  induction 1 as [|n ns Hn _ IH]; simpl.
  - apply framed_ret.
  - eapply framed_flags.
    + eapply framed_bind; [exact Hn|]. intros n'.
      eapply framed_bind; [exact IH|]. intros ns'. apply framed_ret.
    + now rewrite orb_false_r.
    + now rewrite orb_false_r.
    + now rewrite orb_false_r.
Qed.

(** Between its entry and its exit a function definition runs on a frame
    of its own: when [leave_FunctionDef] is called, the top frames hold the
    facts of the definition's own scope and the stacks below are as they
    were on entry. *)
Lemma visit_FunctionDef_scope (ds : list node) (f : string) (ps : node)
    (r : option node) (b : node) :
  Forall Visits ds -> Visits ps -> opt_all Visits r -> Visits b ->
  forall l : bool, exists ds' ps' r' b' l' imps,
    forall (R E Y : list bool) (ctx : list (string * string)),
      visit (FunctionDef ds f ps r b) (mkCommand (st R E Y l) ctx)
      = leave_FunctionDef (FunctionDef ds f ps r b) (FunctionDef ds' f ps' r' b')
          (mkCommand (st (R ++ [scope_records SeenReturn ds ps r b])
                         (E ++ [scope_records SeenRaise ds ps r b])
                         (Y ++ [scope_records SeenYield ds ps r b]) l')
                     (ctx ++ imps)).
Proof.
  intros Hds Hps Hr Hb l.
  apply framed_visit_sequence in Hds. apply framed_visit_optional in Hr.
  destruct (Hds l) as (ds' & l1 & i1 & H1).
  destruct (Hps l1) as (ps' & l2 & i2 & H2).
  destruct (Hr l2) as (r' & l3 & i3 & H3).
  destruct (Hb l3) as (b' & l4 & i4 & H4).
  exists ds', ps', r', b', l4, (i1 ++ i2 ++ i3 ++ i4). intros.
  cbn [visit]. unfold bind. rewrite visit_FunctionDef_pushes.
  rewrite H1, H2, H3, H4. unfold scope_records.
  now rewrite !orb_false_l, <- !app_assoc.
Qed.

Local Ltac framed_step :=
  first
    [ eassumption
    | apply framed_ret
    | apply framed_leave_Param
    | apply framed_leave_Lambda
    | apply framed_visit_Lambda
    | apply framed_visit_Return
    | apply framed_visit_Raise
    | apply framed_visit_Yield
    | apply framed_visit_optional; assumption
    | apply framed_visit_sequence; assumption
    | eapply framed_bind; [|intro] ].

Local Ltac framed_chain :=
  eapply framed_flags;
  [ repeat framed_step
  | cbn [records]; rewrite ?orb_false_r, ?orb_false_l, ?orb_assoc; reflexivity .. ].

(** The traversal of any tree is framed: it succeeds on non-empty stacks,
    leaves every frame below the top alone, and adds to the top frames
    exactly the facts the tree records outside nested definitions. *)
Lemma visit_framed (n : node) : Visits n.
Proof.
  revert n. apply node_induction; unfold visits.
  8: { (* FunctionDef: push, children, pop *)
    intros ds f ps r b Hds Hps Hr Hb l.
    destruct (@visit_FunctionDef_scope ds f ps r b Hds Hps Hr Hb l)
      as (ds' & ps' & r' & b' & l' & i1 & H1).
    destruct (leave_FunctionDef_pops (FunctionDef ds f ps r b)
                (FunctionDef ds' f ps' r' b')
                (scope_records SeenReturn ds ps r b)
                (scope_records SeenRaise ds ps r b)
                (scope_records SeenYield ds ps r b) l') as (n' & i2 & H2).
    exists n', l', (i1 ++ i2). intros.
    rewrite H1, H2. cbn [records].
    now rewrite !orb_false_r, app_assoc. }
  all: intros; cbn [visit]; framed_chain.
Qed.

End Frames.

(** ** Attribution of control-flow facts to scopes *)

(** C6: a return with a value, a raise and a yield each set their flag on
    the top frame of their stack and nowhere else, and a bare return sets
    nothing.  Over a whole traversal the top frames therefore gain exactly
    the facts the tree records outside nested function definitions: a fact
    under a loop, conditional or [try] block (an [Other] node) reaches the
    enclosing frame; a nested definition adds nothing to the enclosing frame
    and is left on a frame holding the facts of its own scope. *)
Theorem facts_go_to_innermost_scope (ao an : list NamedParam) (am ai nr bp : bool) :
  (forall v R r E Y l ctx,
      visit_Return (Return (Some v))
        (mkCommand (mkState ao an am ai nr bp (R ++ [r]) E Y l) ctx)
      = Ok (tt, mkCommand (mkState ao an am ai nr bp (R ++ [true]) E Y l) ctx))
  /\ (forall c, visit_Return (Return None) c = Ok (tt, c))
  /\ (forall n R E e Y l ctx,
      visit_Raise n (mkCommand (mkState ao an am ai nr bp R (E ++ [e]) Y l) ctx)
      = Ok (tt, mkCommand (mkState ao an am ai nr bp R (E ++ [true]) Y l) ctx))
  /\ (forall n R E Y y l ctx,
      visit_Yield n (mkCommand (mkState ao an am ai nr bp R E (Y ++ [y]) l) ctx)
      = Ok (tt, mkCommand (mkState ao an am ai nr bp R E (Y ++ [true]) l) ctx))
  /\ (forall n l, exists n' l' imps, forall R r E e Y y ctx,
      visit n (mkCommand (mkState ao an am ai nr bp
                                  (R ++ [r]) (E ++ [e]) (Y ++ [y]) l) ctx)
      = Ok (n', mkCommand (mkState ao an am ai nr bp
                                   (R ++ [r || records SeenReturn n])
                                   (E ++ [e || records SeenRaise n])
                                   (Y ++ [y || records SeenYield n]) l')
                          (ctx ++ imps)))
  /\ (forall k kind cs, records k (Other kind cs) = existsb (records k) cs)
  /\ (forall k ds f ps r b, records k (FunctionDef ds f ps r b) = false)
  /\ (forall k, records k (Return None) = false)
  /\ (forall ds f ps r b l, exists ds' ps' r' b' l' imps, forall R E Y ctx,
      visit (FunctionDef ds f ps r b)
            (mkCommand (mkState ao an am ai nr bp R E Y l) ctx)
      = leave_FunctionDef (FunctionDef ds f ps r b) (FunctionDef ds' f ps' r' b')
          (mkCommand (mkState ao an am ai nr bp
                              (R ++ [scope_records SeenReturn ds ps r b])
                              (E ++ [scope_records SeenRaise ds ps r b])
                              (Y ++ [scope_records SeenYield ds ps r b]) l')
                     (ctx ++ imps))).
Proof.
  repeat split.
  - intros. unfold visit_Return, bind, get_state, lift_index, put_state. simpl.
    now rewrite PyFacts.set_last_app.
  - intros. unfold visit_Raise, bind, get_state, lift_index, put_state. simpl.
    now rewrite PyFacts.set_last_app.
  - intros. unfold visit_Yield, bind, get_state, lift_index, put_state. simpl.
    now rewrite PyFacts.set_last_app.
  - intros n l. exact (visit_framed ao an am ai nr bp n l).
  - intros k. destruct k; reflexivity.
  - intros ds f ps r b l.
    apply visit_FunctionDef_scope.
    + apply Forall_forall. intros x _. apply visit_framed.
    + apply visit_framed.
    + destruct r; simpl; [apply visit_framed | exact I].
    + apply visit_framed.
Qed.

(** ** Balance of the three stacks *)

(** C10: the three stacks start with one seed frame each; entering a
    function definition appends one frame to each and leaving it removes
    one from each, whatever the return policy decides; a traversal of any
    tree from one-frame stacks succeeds and ends with one-frame stacks,
    and the tree and the imports it produces are the same for every value
    of the seed frames, which are still in place at the end. *)
Theorem stacks_balanced (ao an : list NamedParam) (am ai nr bp : bool) :
  (forall optional named cmd,
      __init__ optional named am ai nr bp = Ok cmd ->
      seen_return_statement (state cmd) = [false]
      /\ seen_raise_statement (state cmd) = [false]
      /\ seen_yield (state cmd) = [false])
  /\ (forall n R E Y l ctx,
      visit_FunctionDef n (mkCommand (mkState ao an am ai nr bp R E Y l) ctx)
      = Ok (tt, mkCommand (mkState ao an am ai nr bp
                                   (R ++ [false]) (E ++ [false]) (Y ++ [false]) l) ctx))
  /\ (forall o u a b c l, exists n' imps, forall R E Y ctx,
      leave_FunctionDef o u
        (mkCommand (mkState ao an am ai nr bp (R ++ [a]) (E ++ [b]) (Y ++ [c]) l) ctx)
      = Ok (n', mkCommand (mkState ao an am ai nr bp R E Y l) (ctx ++ imps)))
  /\ (forall tree l, exists tree' l' imps, forall a b c ctx,
      visit tree (mkCommand (mkState ao an am ai nr bp [a] [b] [c] l) ctx)
      = Ok (tree', mkCommand (mkState ao an am ai nr bp
                                      [a || records SeenReturn tree]
                                      [b || records SeenRaise tree]
                                      [c || records SeenYield tree] l')
                             (ctx ++ imps)))
  /\ (forall optional named cmd tree,
      __init__ optional named am ai nr bp = Ok cmd ->
      exists tree' cmd',
        visit tree cmd = Ok (tree', cmd')
        /\ List.length (seen_return_statement (state cmd')) = 1
        /\ List.length (seen_raise_statement (state cmd')) = 1
        /\ List.length (seen_yield (state cmd')) = 1).
Proof.
  split; [|split; [|split; [|split]]].
  - intros optional named cmd. unfold __init__.
    destruct (rules_of optional); [|discriminate].
    destruct (rules_of named); [|discriminate].
    intros H. injection H as <-. simpl. auto.
  - intros. reflexivity.
  - intros. apply leave_FunctionDef_pops.
  - intros tree l.
    destruct (visit_framed ao an am ai nr bp tree l) as (tree' & l' & imps & H).
    exists tree', l', imps. intros a b c ctx.
    exact (H [] a [] b [] c ctx).
  - intros optional named cmd tree. unfold __init__.
    destruct (rules_of optional) as [os|]; [|discriminate].
    destruct (rules_of named) as [ns|]; [|discriminate].
    intros H. injection H as <-.
    destruct (visit_framed os ns am ai nr bp tree false) as (tree' & l' & imps & H).
    eexists _, _. split; [exact (H [] false [] false [] false [])|].
    simpl. auto.
Qed.

Lemma stacks_balanced_witness :
  exists tree' cmd',
    visit (Other "Module"
             [FunctionDef [] "f" (Parameters [Param "x" None None]) None
                (Other "If" [Name "x"; Raise (Some (Name "E")) None])])
          (mkCommand (mkState [] [] false false true false [false] [false] [false] false) [])
    = Ok (tree', cmd')
    /\ List.length (seen_return_statement (state cmd')) = 1
    /\ List.length (seen_raise_statement (state cmd')) = 1
    /\ List.length (seen_yield (state cmd')) = 1.
Proof.
  apply (proj2 (proj2 (proj2 (proj2 (stacks_balanced [] [] false false true false))))
           None None).
  reflexivity.
Defined.

(** ** The return-type policy *)

(** C1: on a function definition without a return annotation the rules are
    tried in order and the first that applies decides.  (a) With
    [none_return] on and a popped frame without raise, value-returning
    return and yield, the annotation is [None], whatever the name.
    (b) Otherwise, with [annotate_magics] on and the name in
    [SIMPLE_MAGICS], the annotation is the table's type.  (c) Otherwise,
    with [annotate_imprecise_magics] on and the name in [IMPRECISE_MAGICS],
    the table's (module, symbol) is requested and the symbol is the
    annotation.  (d) Otherwise the node is returned as it is.  A definition
    that has a return annotation is returned as it is. *)
Theorem return_policy_in_priority_order
    (ao an : list NamedParam) (am ai nr bp : bool)
    (ds : list node) (f : string) (ps b u : node)
    (R E Y : list bool) (sr se sy l : bool) (ctx : list (string * string)) :
  let o := FunctionDef ds f ps None b in
  let c := mkCommand (mkState ao an am ai nr bp (R ++ [sr]) (E ++ [se]) (Y ++ [sy]) l) ctx in
  let popped := mkState ao an am ai nr bp R E Y l in
  let rule_a := nr && negb se && negb sr && negb sy in
  let rule_b := if am then Py.get SIMPLE_MAGICS f else None in
  let rule_c := if ai then Py.get IMPRECISE_MAGICS f else None in
  (nr = true -> se = false -> sr = false -> sy = false ->
   leave_FunctionDef o u c
   = Ok (with_returns u (Annotation (Name "None")), mkCommand popped ctx))
  /\ (rule_a = false -> forall ty, rule_b = Some ty ->
      leave_FunctionDef o u c
      = Ok (with_returns u (Annotation (Name ty)), mkCommand popped ctx))
  /\ (rule_a = false -> rule_b = None -> forall md sym, rule_c = Some (md, sym) ->
      leave_FunctionDef o u c
      = Ok (with_returns u (Annotation (Name sym)),
            mkCommand popped (ctx ++ [(md, sym)])))
  /\ (rule_a = false -> rule_b = None -> rule_c = None ->
      leave_FunctionDef o u c = Ok (u, mkCommand popped ctx))
  /\ (forall r,
      leave_FunctionDef (FunctionDef ds f ps (Some r) b) u c
      = Ok (u, mkCommand popped ctx)).
Proof.
  intros o c popped rule_a rule_b rule_c.
  assert (Hpop : forall k : bool -> bool -> bool -> M node,
             (x <- pop_seen_return_statement ;; y <- pop_seen_raise_statement ;;
              z <- pop_seen_yield ;; k x y z) c
             = k sr se sy (mkCommand popped ctx)).
  { intros k. subst c popped.
    unfold bind, pop_seen_return_statement, pop_seen_raise_statement, pop_seen_yield,
      bind, get_state, lift_index, put_state, ret. cbn [state seen_return_statement].
    rewrite PyFacts.pop_app. cbn. rewrite PyFacts.pop_app. cbn.
    rewrite PyFacts.pop_app. cbn. reflexivity. }
  assert (Hleave : forall o', leave_FunctionDef o' u c
                    = (s <- get_state ;;
                       match o' with
                       | FunctionDef _ f' _ None _ =>
                           if none_return s && negb se && negb sr && negb sy
                           then ret (with_returns u (Annotation (Name "None")))
                           else
                             let imprecise :=
                               if annotate_imprecise_magics s then
                                 match Py.get IMPRECISE_MAGICS f' with
                                 | Some (md, imported_name) =>
                                     add_needed_import md imported_name ;;
                                     ret (with_returns u (Annotation (Name imported_name)))
                                 | None => ret u
                                 end
                               else ret u in
                             if annotate_magics s then
                               match Py.get SIMPLE_MAGICS f' with
                               | Some ty => ret (with_returns u (Annotation (Name ty)))
                               | None => imprecise
                               end
                             else imprecise
                       | _ => ret u
                       end) (mkCommand popped ctx)).
  { intros o'. unfold leave_FunctionDef.
    exact (Hpop (fun x y z => s <- get_state ;; _)). }
  repeat split.
  - intros -> -> -> ->. rewrite Hleave. reflexivity.
  - intros Ha ty Hb. rewrite Hleave. subst o popped.
    unfold bind, get_state. cbn [state none_return annotate_magics].
    fold rule_a. rewrite Ha. subst rule_b.
    destruct am; [|discriminate]. now rewrite Hb.
  - intros Ha Hb md sym Hc. rewrite Hleave. subst o popped.
    unfold bind, get_state.
    cbn [state none_return annotate_magics annotate_imprecise_magics].
    fold rule_a. rewrite Ha. subst rule_b rule_c.
    destruct ai; [|discriminate]. rewrite Hc.
    destruct am; [rewrite Hb|]; reflexivity.
  - intros Ha Hb Hc. rewrite Hleave. subst o popped.
    unfold bind, get_state.
    cbn [state none_return annotate_magics annotate_imprecise_magics].
    fold rule_a. rewrite Ha. subst rule_b rule_c.
    destruct am, ai; rewrite ?Hb, ?Hc; reflexivity.
  - intros r. rewrite Hleave. reflexivity.
Qed.

Lemma return_policy_in_priority_order_witness :
  leave_FunctionDef
    (FunctionDef [] "__len__" (Parameters [Param "self" None None]) None (Other "Pass" []))
    (FunctionDef [] "__len__" (Parameters [Param "self" None None]) None (Other "Pass" []))
    (mkCommand (mkState [] [] true true true false
                        [false; false] [false; false] [false; false] false) [])
  = Ok (FunctionDef [] "__len__" (Parameters [Param "self" None None])
                    (Some (Annotation (Name "None"))) (Other "Pass" []),
        mkCommand (mkState [] [] true true true false [false] [false] [false] false) [])
  /\ leave_FunctionDef
    (FunctionDef [] "__len__" (Parameters [Param "self" None None]) None (Other "Pass" []))
    (FunctionDef [] "__len__" (Parameters [Param "self" None None]) None (Other "Pass" []))
    (mkCommand (mkState [] [] true true true false
                        [false; true] [false; false] [false; false] false) [])
  = Ok (FunctionDef [] "__len__" (Parameters [Param "self" None None])
                    (Some (Annotation (Name "int"))) (Other "Pass" []),
        mkCommand (mkState [] [] true true true false [false] [false] [false] false) []).
Proof.
  split.
  - apply (proj1 (return_policy_in_priority_order [] [] true true true false
                    [] "__len__" (Parameters [Param "self" None None]) (Other "Pass" [])
                    (FunctionDef [] "__len__" (Parameters [Param "self" None None]) None
                                 (Other "Pass" []))
                    [false] [false] [false] false false false false []));
      reflexivity.
  - apply (proj1 (proj2 (return_policy_in_priority_order [] [] true true true false
                    [] "__len__" (Parameters [Param "self" None None]) (Other "Pass" [])
                    (FunctionDef [] "__len__" (Parameters [Param "self" None None]) None
                                 (Other "Pass" []))
                    [false] [false] [false] true false false false [])));
      reflexivity.
Defined.

(** ** The parameter policies *)





(** C5: outside a lambda, with [bool_param] on, a parameter without
    annotation whose default is the [True] or the [False] literal is
    annotated [bool]; the Optional and named-param rules are not looked at,
    whatever they hold, and nothing is requested. *)
Theorem bool_default_annotated_first
    (ao an : list NamedParam) (am ai nr : bool)
    (x v : string) (u : node) (R E Y : list bool) (ctx : list (string * string)) :
  v = "True" \/ v = "False" ->
  let o := Param x None (Some (Name v)) in
  let c := mkCommand (mkState ao an am ai nr true R E Y false) ctx in
  leave_Param o u c = Ok (with_annotation u (Annotation (Name "bool")), c)
  /\ visit o c = Ok (Param x (Some (Annotation (Name "bool"))) (Some (Name v)), c).
Proof.
  intros [-> | ->]; split; reflexivity.
Qed.

Lemma bool_default_annotated_first_witness :
  visit (Param "flag" None (Some (Name "True")))
    (mkCommand (mkState [mkNamedParam "flag" "m" "T"] [mkNamedParam "flag" "m" "T"]
                        false false false true [false] [false] [false] false) [])
  = Ok (Param "flag" (Some (Annotation (Name "bool"))) (Some (Name "True")),
        mkCommand (mkState [mkNamedParam "flag" "m" "T"] [mkNamedParam "flag" "m" "T"]
                           false false false true [false] [false] [false] false) []).
Proof.
  apply (proj2 (bool_default_annotated_first
                  [mkNamedParam "flag" "m" "T"] [mkNamedParam "flag" "m" "T"]
                  false false false "flag" (Name "x") [false] [false] [false] []
                  (or_introl eq_refl))).
Defined.

(** ** Lambdas *)

(** C2 (the code departs from it): [leave_Lambda] clears the flag whatever
    it was on entry, so after an inner lambda the traversal no longer
    counts as inside the outer one, and [leave_Param] annotates a later
    parameter of the outer lambda: in [lambda a=(lambda: 0), flag=True: 0]
    the parameter [flag] comes back with the annotation [bool], against
    the comment of [leave_Param] that lambdas cannot have annotations. *)
Theorem lambda_flag_cleared_not_restored :
  (forall n u s ctx,
      (visit_Lambda n ;; leave_Lambda n u) (mkCommand (set_in_lambda s true) ctx)
      = Ok (u, mkCommand (set_in_lambda s false) ctx))
  /\ codemod None None false false false true lambda_in_default
     = Ok (Lambda
             (Parameters
                [ Param "a" None (Some (Lambda (Parameters []) (Other "Integer" [])));
                  Param "flag" (Some (Annotation (Name "bool"))) (Some (Name "True")) ])
             (Other "Integer" []),
           []).
Proof.
  split; [|reflexivity].
  intros n u s ctx. reflexivity.
Qed.

(** ** Idempotence *)

Lemma bind_inv {A B : Type} (m : M A) (k : A -> M B) (c c' : AutotypeCommand) (b : B) :
  bind m k c = Ok (b, c') ->
  exists a c1, m c = Ok (a, c1) /\ k a c1 = Ok (b, c').
Proof.
  unfold bind. destruct (m c) as [[a c1]|e]; [|discriminate].
  intros H. now exists a, c1.
Qed.

Lemma bind_ok {A B : Type} (m : M A) (k : A -> M B) (c c1 : AutotypeCommand) (a : A) :
  m c = Ok (a, c1) -> bind m k c = k a c1.
Proof. unfold bind. now intros ->. Qed.

Lemma ret_inv {A : Type} (a b : A) (c c' : AutotypeCommand) :
  ret a c = Ok (b, c') -> b = a /\ c' = c.
Proof. unfold ret. intros H. injection H as <- <-. auto. Qed.

Local Ltac bind_inv H :=
  let a := fresh "a" in
  let c := fresh "c" in
  let H1 := fresh H in
  apply bind_inv in H; destruct H as (a & c & H1 & H).

(** The hooks that only touch the state do the same to it whatever the
    node and the import requests. *)

Lemma visit_FunctionDef_again (n n2 : node) (c c1 : AutotypeCommand) (ctx : list (string * string)) :
  visit_FunctionDef n c = Ok (tt, c1) ->
  visit_FunctionDef n2 (with_context c ctx) = Ok (tt, with_context c1 ctx).
Proof.
  unfold visit_FunctionDef, bind, get_state, put_state, with_context. simpl.
  intros H. injection H as <-. reflexivity.
Qed.

Lemma visit_Return_again (v v2 : option node) (c c1 : AutotypeCommand)
    (ctx : list (string * string)) :
  (v = None <-> v2 = None) ->
  visit_Return (Return v) c = Ok (tt, c1) ->
  visit_Return (Return v2) (with_context c ctx) = Ok (tt, with_context c1 ctx).
Proof.
  intros Hv. destruct v as [v|], v2 as [v2|]; simpl;
    try (exfalso; destruct Hv as [H1 H2]; (now discriminate H1) || (now discriminate H2)).
  - unfold bind, get_state, lift_index, put_state, with_context. simpl.
    destruct (Py.set_last (seen_return_statement (state c)) true); [|discriminate].
    intros H. injection H as <-. reflexivity.
  - unfold ret. intros H. injection H as <-. reflexivity.
Qed.

Lemma visit_Raise_again (n n2 : node) (c c1 : AutotypeCommand) (ctx : list (string * string)) :
  visit_Raise n c = Ok (tt, c1) ->
  visit_Raise n2 (with_context c ctx) = Ok (tt, with_context c1 ctx).
Proof.
  unfold visit_Raise, bind, get_state, lift_index, put_state, with_context. simpl.
  destruct (Py.set_last (seen_raise_statement (state c)) true); [|discriminate].
  intros H. injection H as <-. reflexivity.
Qed.

Lemma visit_Yield_again (n n2 : node) (c c1 : AutotypeCommand) (ctx : list (string * string)) :
  visit_Yield n c = Ok (tt, c1) ->
  visit_Yield n2 (with_context c ctx) = Ok (tt, with_context c1 ctx).
Proof.
  unfold visit_Yield, bind, get_state, lift_index, put_state, with_context. simpl.
  destruct (Py.set_last (seen_yield (state c)) true); [|discriminate].
  intros H. injection H as <-. reflexivity.
Qed.

Lemma visit_Lambda_again (n n2 : node) (c c1 : AutotypeCommand) (ctx : list (string * string)) :
  visit_Lambda n c = Ok (tt, c1) ->
  visit_Lambda n2 (with_context c ctx) = Ok (tt, with_context c1 ctx).
Proof.
  unfold visit_Lambda, bind, get_state, put_state, with_context. simpl.
  intros H. injection H as <-. reflexivity.
Qed.

Lemma leave_Lambda_again (o u : node) (c c1 : AutotypeCommand) (n' : node) :
  leave_Lambda o u c = Ok (n', c1) ->
  n' = u /\ forall o2 u2 ctx,
      leave_Lambda o2 u2 (with_context c ctx) = Ok (u2, with_context c1 ctx).
Proof.
  unfold leave_Lambda, bind, get_state, put_state, ret, with_context. simpl.
  intros H. injection H as <- <-. auto.
Qed.

(** New annotations are stable. *)

Lemma stable_name_annotation (ty : string) : stable (Annotation (Name ty)).
Proof. intros c. reflexivity. Qed.

Lemma stable_optional_of (ty : string) : stable (optional_of ty).
Proof. intros c. reflexivity. Qed.

Lemma annotate_param_inv (p : NamedParam) (u : node) (optional : bool)
    (c c' : AutotypeCommand) (n' : node) :
  _annotate_param p u optional c = Ok (n', c') ->
  state c' = state c
  /\ exists t, n' = with_annotation u t /\ stable t.
Proof.
  unfold _annotate_param, bind, add_needed_import, ret.
  destruct optional; simpl; intros H; injection H as <- <-; simpl.
  - split; [reflexivity|]. eexists. split; [reflexivity|]. apply stable_optional_of.
  - split; [reflexivity|]. eexists. split; [reflexivity|]. apply stable_name_annotation.
Qed.

Lemma scan_rules_inv (rules : list NamedParam) (x : string) (u : node)
    (optional : bool) (c c' : AutotypeCommand) (n' : node) :
  scan_rules rules x u optional c = Ok (n', c') ->
  state c' = state c
  /\ ((exists t, n' = with_annotation u t /\ stable t)
      \/ (n' = u /\ forall u2 c2, scan_rules rules x u2 optional c2 = Ok (u2, c2))).
Proof.
  induction rules as [|r rules IH]; simpl.
  - intros H. apply ret_inv in H. destruct H as [-> ->]. split; [reflexivity|].
    right. split; reflexivity.
  - destruct (String.eqb x (name r)).
    + intros H. apply annotate_param_inv in H. destruct H as [Hs Ht]. auto.
    + exact IH.
Qed.

Lemma leave_Param_idem (x : string) (a d a' d' : option node)
    (c c' : AutotypeCommand) (n' : node) :
  (a = None <-> a' = None) ->
  default_is_bool d' = default_is_bool d ->
  default_is_none d' = default_is_none d ->
  (d = None <-> d' = None) ->
  leave_Param (Param x a d) (Param x a' d') c = Ok (n', c') ->
  state c' = state c
  /\ (n' = Param x a' d'
      \/ (a = None /\ a' = None /\ exists t, n' = Param x (Some t) d' /\ stable t))
  /\ forall ctx, leave_Param n' n' (with_context c ctx) = Ok (n', with_context c ctx).
Proof.
  intros Ha Hb Hn Hd.
  unfold leave_Param at 1. unfold bind, get_state.
  destruct (in_lambda (state c)) eqn:Hl.
  { intros H. apply ret_inv in H. destruct H as [-> ->].
    repeat split; auto. intros ctx.
    unfold leave_Param, bind, get_state, with_context. cbn [state]. now rewrite Hl. }
  destruct a as [a|].
  { intros H. apply ret_inv in H. destruct H as [-> ->].
    repeat split; auto. intros ctx.
    unfold leave_Param, bind, get_state, with_context. cbn [state]. rewrite Hl.
    destruct a' as [a'|]; [reflexivity|]. discriminate (proj2 Ha eq_refl). }
  assert (a' = None) as -> by now apply Ha.
  destruct (bool_param (state c) && default_is_bool d) eqn:Hbool.
  { intros H. apply ret_inv in H. destruct H as [-> ->]. cbn [with_annotation].
    split; [reflexivity|]. split.
    - right. repeat split; auto. eexists. split; [reflexivity|].
      apply stable_name_annotation.
    - intros ctx. unfold leave_Param, bind, get_state, with_context. cbn [state].
      now rewrite Hl. }
  destruct (default_is_none d) eqn:Hnone.
  { intros H. apply scan_rules_inv in H.
    destruct H as [Hs [(t & -> & Ht) | [-> Hno]]]; cbn [with_annotation].
    - split; [exact Hs|]. split.
      + right. repeat split; auto. now exists t.
      + intros ctx. unfold leave_Param, bind, get_state, with_context. cbn [state].
        now rewrite Hl.
    - split; [exact Hs|]. split; [now left|].
      intros ctx. unfold leave_Param, bind, get_state, with_context. cbn [state].
      rewrite Hl, Hb, Hbool, Hn. apply Hno. }
  destruct d as [d|].
  { intros H. apply ret_inv in H. destruct H as [-> ->].
    split; [reflexivity|]. split; [now left|].
    intros ctx. unfold leave_Param, bind, get_state, with_context. cbn [state].
    rewrite Hl, Hb, Hbool, Hn.
    destruct d' as [d'|]; [reflexivity|]. discriminate (proj2 Hd eq_refl). }
  assert (d' = None) as -> by now apply Hd.
  intros H. apply scan_rules_inv in H.
  destruct H as [Hs [(t & -> & Ht) | [-> Hno]]]; cbn [with_annotation].
  - split; [exact Hs|]. split.
    + right. repeat split; auto. now exists t.
    + intros ctx. unfold leave_Param, bind, get_state, with_context. cbn [state].
      now rewrite Hl.
  - split; [exact Hs|]. split; [now left|].
    intros ctx. unfold leave_Param, bind, get_state, with_context. cbn [state].
    rewrite Hl, Hbool. cbn [default_is_none]. apply Hno.
Qed.

Lemma pops_inv {A : Type} (k : bool -> bool -> bool -> M A)
    (c c' : AutotypeCommand) (a : A) :
  (x <- pop_seen_return_statement ;; y <- pop_seen_raise_statement ;;
   z <- pop_seen_yield ;; k x y z) c = Ok (a, c') ->
  exists (x y z : bool) (s : State),
    k x y z (mkCommand s (context c)) = Ok (a, c')
    /\ forall (B : Type) (k' : bool -> bool -> bool -> M B) ctx,
        (x <- pop_seen_return_statement ;; y <- pop_seen_raise_statement ;;
         z <- pop_seen_yield ;; k' x y z) (with_context c ctx)
        = k' x y z (mkCommand s ctx).
Proof.
  unfold pop_seen_return_statement, pop_seen_raise_statement, pop_seen_yield,
    bind, get_state, lift_index, put_state, ret, with_context.
  cbn [state context].
  destruct (Py.pop (seen_return_statement (state c))) as [[x l1]|]; [|discriminate].
  cbn.
  destruct (Py.pop (seen_raise_statement (state c))) as [[y l2]|]; [|discriminate].
  cbn.
  destruct (Py.pop (seen_yield (state c))) as [[z l3]|]; [|discriminate].
  cbn. intros H. exists x, y, z. eexists. split; [exact H|]. reflexivity.
Qed.

Lemma leave_FunctionDef_idem (ds : list node) (f : string) (ps : node)
    (r : option node) (b : node) (ds' : list node) (ps' : node)
    (r' : option node) (b' : node) (c c' : AutotypeCommand) (n' : node) :
  (r = None <-> r' = None) ->
  leave_FunctionDef (FunctionDef ds f ps r b) (FunctionDef ds' f ps' r' b') c
  = Ok (n', c') ->
  (n' = FunctionDef ds' f ps' r' b'
   \/ (r = None /\ r' = None
       /\ exists t, n' = FunctionDef ds' f ps' (Some t) b' /\ stable t))
  /\ forall ctx,
      leave_FunctionDef n' n' (with_context c ctx) = Ok (n', with_context c' ctx).
Proof.
  intros Hr H. unfold leave_FunctionDef in H.
  apply (pops_inv (fun x y z => s <- get_state ;; _)) in H.
  destruct H as (x & y & z & s & H & Hagain).
  assert (Hsecond : forall t ctx,
             leave_FunctionDef (FunctionDef ds' f ps' (Some t) b')
               (FunctionDef ds' f ps' (Some t) b') (with_context c ctx)
             = Ok (FunctionDef ds' f ps' (Some t) b', mkCommand s ctx)).
  { intros t ctx. unfold leave_FunctionDef.
    rewrite (Hagain _ (fun x y z => s <- get_state ;; _)). reflexivity. }
  unfold bind, get_state in H. cbn [state] in H.
  destruct r as [r|].
  { apply ret_inv in H. destruct H as [-> ->]. split; [now left|].
    destruct r' as [r'|]; [|discriminate (proj2 Hr eq_refl)].
    intros ctx. apply Hsecond. }
  assert (r' = None) as -> by now apply Hr.
  destruct (none_return s && negb y && negb x && negb z) eqn:Ha.
  { apply ret_inv in H. destruct H as [-> ->]. cbn [with_returns]. split.
    - right. repeat split; auto. eexists. split; [reflexivity|].
      apply stable_name_annotation.
    - intros ctx. apply Hsecond. }
  assert (Hrest : forall m : M node,
             m (mkCommand s (context c)) = Ok (n', c') ->
             (m = (if annotate_imprecise_magics s
                   then match Py.get IMPRECISE_MAGICS f with
                        | Some (md, imported_name) =>
                            add_needed_import md imported_name ;;
                            ret (with_returns (FunctionDef ds' f ps' None b')
                                   (Annotation (Name imported_name)))
                        | None => ret (FunctionDef ds' f ps' None b')
                        end
                   else ret (FunctionDef ds' f ps' None b'))) ->
             (annotate_magics s = false \/ Py.get SIMPLE_MAGICS f = None) ->
             (n' = FunctionDef ds' f ps' None b'
              \/ (@None node = None /\ @None node = None
                  /\ exists t, n' = FunctionDef ds' f ps' (Some t) b' /\ stable t))
             /\ forall ctx,
                 leave_FunctionDef n' n' (with_context c ctx)
                 = Ok (n', with_context c' ctx)).
  { intros m Hm -> Hsimple.
    assert (Hunchanged : forall ctx,
               leave_FunctionDef (FunctionDef ds' f ps' None b')
                 (FunctionDef ds' f ps' None b') (with_context c ctx)
               = (if annotate_imprecise_magics s
                  then match Py.get IMPRECISE_MAGICS f with
                       | Some (md, imported_name) =>
                           add_needed_import md imported_name ;;
                           ret (with_returns (FunctionDef ds' f ps' None b')
                                  (Annotation (Name imported_name)))
                       | None => ret (FunctionDef ds' f ps' None b')
                       end
                  else ret (FunctionDef ds' f ps' None b')) (mkCommand s ctx)).
    { intros ctx. unfold leave_FunctionDef.
      rewrite (Hagain _ (fun x y z => s <- get_state ;; _)).
      unfold bind at 1. unfold get_state. cbn [state]. rewrite Ha.
      destruct Hsimple as [-> | ->]; [reflexivity|].
      destruct (annotate_magics s); reflexivity. }
    destruct (annotate_imprecise_magics s).
    - destruct (Py.get IMPRECISE_MAGICS f) as [[md sym]|].
      + unfold bind, add_needed_import, ret in Hm. cbn in Hm.
        injection Hm as <- <-. split.
        * right. repeat split; auto. eexists. split; [reflexivity|].
          apply stable_name_annotation.
        * intros ctx. apply Hsecond.
      + apply ret_inv in Hm. destruct Hm as [-> ->]. split; [now left|].
        intros ctx. rewrite Hunchanged. reflexivity.
    - apply ret_inv in Hm. destruct Hm as [-> ->]. split; [now left|].
      intros ctx. rewrite Hunchanged. reflexivity. }
  destruct (annotate_magics s) eqn:Ham.
  - destruct (Py.get SIMPLE_MAGICS f) as [ty|] eqn:Hty.
    + apply ret_inv in H. destruct H as [-> ->]. cbn [with_returns]. split.
      * right. repeat split; auto. eexists. split; [reflexivity|].
        apply stable_name_annotation.
      * intros ctx. apply Hsecond.
    + apply (Hrest _ H eq_refl). now right.
  - apply (Hrest _ H eq_refl). now left.
Qed.

(** The hooks return the updated node with at most one slot filled. *)

Lemma leave_Param_result (o u : node) (c c' : AutotypeCommand) (n' : node) :
  leave_Param o u c = Ok (n', c') -> n' = u \/ exists t, n' = with_annotation u t.
Proof.
  unfold leave_Param, bind, get_state.
  assert (Hret : ret u c = Ok (n', c') -> n' = u \/ exists t, n' = with_annotation u t).
  { intros H. apply ret_inv in H. now left. }
  assert (Hscan : forall rules x optional,
             scan_rules rules x u optional c = Ok (n', c') ->
             n' = u \/ exists t, n' = with_annotation u t).
  { intros rules x optional H. apply scan_rules_inv in H.
    destruct H as [_ [(t & -> & _) | [-> _]]]; [right; now exists t | now left]. }
  destruct (in_lambda (state c)); [exact Hret|].
  destruct o as [ | | | | |x [a|] d| | | | | | | ]; try exact Hret.
  destruct (bool_param (state c) && default_is_bool d).
  { intros H. apply ret_inv in H. destruct H as [-> _]. right. now eexists. }
  destruct (default_is_none d); [apply Hscan|].
  destruct d; [exact Hret | apply Hscan].
Qed.

Lemma leave_FunctionDef_result (o u : node) (c c' : AutotypeCommand) (n' : node) :
  leave_FunctionDef o u c = Ok (n', c') -> n' = u \/ exists t, n' = with_returns u t.
Proof.
  intros H. unfold leave_FunctionDef in H.
  apply (pops_inv (fun x y z => s <- get_state ;; _)) in H.
  destruct H as (x & y & z & s & H & _).
  unfold bind, get_state in H. cbn [state] in H.
  assert (Hret : forall c0, ret u c0 = Ok (n', c') ->
                            n' = u \/ exists t, n' = with_returns u t).
  { intros c0 H0. apply ret_inv in H0. now left. }
  assert (Hann : forall t c0, ret (with_returns u t) c0 = Ok (n', c') ->
                              n' = u \/ exists t, n' = with_returns u t).
  { intros t c0 H0. apply ret_inv in H0. destruct H0 as [-> _]. right. now exists t. }
  destruct o as [ | | | | | | |ds f ps [r|] bd| | | | | ]; try (now apply Hret in H).
  destruct (none_return s && negb y && negb x && negb z); [now apply Hann in H|].
  assert (Himp : (if annotate_imprecise_magics s
                  then match Py.get IMPRECISE_MAGICS f with
                       | Some (md, imported_name) =>
                           add_needed_import md imported_name ;;
                           ret (with_returns u (Annotation (Name imported_name)))
                       | None => ret u
                       end
                  else ret u) (mkCommand s (context c)) = Ok (n', c') ->
                 n' = u \/ exists t, n' = with_returns u t).
  { destruct (annotate_imprecise_magics s); [|apply Hret].
    destruct (Py.get IMPRECISE_MAGICS f) as [[md sym]|]; [|apply Hret].
    unfold bind, add_needed_import. cbn. apply Hann. }
  destruct (annotate_magics s); [|now apply Himp].
  destruct (Py.get SIMPLE_MAGICS f); [now apply Hann in H | now apply Himp].
Qed.

(** The traversal keeps the head of the tree, and the name of a [Name]. *)
Lemma visit_same_head (n : node) (c c' : AutotypeCommand) (n' : node) :
  visit n c = Ok (n', c') -> same_head n n'.
Proof.
  destruct n; cbn [visit]; intros H;
    repeat (match type of H with
            | bind _ _ _ = Ok _ =>
                let a := fresh "a" in let c1 := fresh "c" in let H1 := fresh "H" in
                apply bind_inv in H; destruct H as (a & c1 & H1 & H)
            end);
    try (apply ret_inv in H; destruct H as [-> _]; exact I).
  - apply ret_inv in H. destruct H as [-> _]. reflexivity.
  - apply leave_Param_result in H. destruct H as [-> | [t ->]]; exact I.
  - apply leave_FunctionDef_result in H. destruct H as [-> | [t ->]]; exact I.
Qed.

Lemma visit_optional_shape (o o' : option node) (c c' : AutotypeCommand) :
  visit_optional visit o c = Ok (o', c') ->
  (o = None <-> o' = None)
  /\ default_is_bool o' = default_is_bool o
  /\ default_is_none o' = default_is_none o.
Proof.
  destruct o as [n|]; simpl; intros H.
  - apply bind_inv in H. destruct H as (n1 & c1 & Hn & H).
    apply ret_inv in H. destruct H as [-> _].
    apply visit_same_head in Hn.
    split; [split; discriminate|].
    destruct n, n1; simpl in Hn; try contradiction; subst; auto.
  - apply ret_inv in H. destruct H as [-> _]. repeat split; auto.
Qed.

Lemma settled_optional (o : option node) :
  opt_all settled o ->
  forall c o' c', visit_optional visit o c = Ok (o', c') ->
  forall ctx, visit_optional visit o' (with_context c ctx) = Ok (o', with_context c' ctx).
Proof.
  destruct o as [n|]; simpl; intros Hn c o' c' H ctx.
  - apply bind_inv in H. destruct H as (n1 & c1 & H1 & H).
    apply ret_inv in H. destruct H as [-> ->]. simpl.
    now rewrite (@bind_ok _ _ _ _ _ _ _ (Hn _ _ _ H1 ctx)).
  - apply ret_inv in H. destruct H as [-> ->]. reflexivity.
Qed.

Lemma settled_sequence (ns : list node) :
  Forall settled ns ->
  forall c ns' c', visit_sequence visit ns c = Ok (ns', c') ->
  forall ctx, visit_sequence visit ns' (with_context c ctx) = Ok (ns', with_context c' ctx).
Proof.
  induction 1 as [|n ns Hn _ IH]; simpl; intros c ns' c' H ctx.
  - apply ret_inv in H. destruct H as [-> ->]. reflexivity.
  - apply bind_inv in H. destruct H as (n1 & c1 & H1 & H).
    apply bind_inv in H. destruct H as (ns1 & c2 & H2 & H).
    apply ret_inv in H. destruct H as [-> ->]. simpl.
    rewrite (@bind_ok _ _ _ _ _ _ _ (Hn _ _ _ H1 ctx)).
    now rewrite (@bind_ok _ _ _ _ _ _ _ (IH _ _ _ H2 ctx)).
Qed.

Lemma stable_optional (t : node) (c : AutotypeCommand) :
  stable t -> visit_optional visit (Some t) c = Ok (Some t, c).
Proof. intros Ht. simpl. now rewrite (@bind_ok _ _ _ _ _ _ _ (Ht c)). Qed.

Local Ltac binds H :=
  repeat (match type of H with
          | bind _ _ _ = Ok _ =>
              let a := fresh "a" in let c1 := fresh "c" in let H1 := fresh "H" in
              apply bind_inv in H; destruct H as (a & c1 & H1 & H)
          end);
  repeat match goal with u : unit |- _ => destruct u end.

Local Ltac again :=
  repeat
    (erewrite bind_ok
       by first [ eapply visit_FunctionDef_again; eassumption
                | eapply visit_Raise_again; eassumption
                | eapply visit_Yield_again; eassumption
                | eapply visit_Lambda_again; eassumption
                | eapply settled_optional; [|eassumption]; assumption
                | eapply settled_sequence; [|eassumption]; assumption
                | match goal with
                  | IH : settled ?n |- visit _ _ = _ => eapply IH; eassumption
                  end ]).

(** A second traversal of the output of a first one, from the same state,
    returns that output and leaves the state as the first one did. *)
Lemma visit_settled (n : node) : settled n.
Proof.
  revert n. apply node_induction.
  - (* Name *)
    intros v c n' c' H ctx. apply ret_inv in H. destruct H as [-> ->]. reflexivity.
  - (* Annotation *)
    intros a IH c n' c' H ctx. cbn [visit] in H. binds H.
    apply ret_inv in H. destruct H as [-> ->]. cbn [visit]. again. reflexivity.
  - (* Index *)
    intros a IH c n' c' H ctx. cbn [visit] in H. binds H.
    apply ret_inv in H. destruct H as [-> ->]. cbn [visit]. again. reflexivity.
  - (* SubscriptElement *)
    intros a IH c n' c' H ctx. cbn [visit] in H. binds H.
    apply ret_inv in H. destruct H as [-> ->]. cbn [visit]. again. reflexivity.
  - (* Subscript *)
    intros v sl IHv IHsl c n' c' H ctx. cbn [visit] in H. binds H.
    apply ret_inv in H. destruct H as [-> ->]. cbn [visit]. again. reflexivity.
  - (* Param *)
    intros x a d IHa IHd c n' c' H ctx. cbn [visit] in H. binds H.
    destruct (@visit_optional_shape _ _ _ _ H0) as (Ha & _ & _).
    destruct (@visit_optional_shape _ _ _ _ H1) as (Hd & Hb & Hn).
    destruct (@leave_Param_idem _ _ _ _ _ _ _ _ Ha Hb Hn Hd H)
      as (Hs & [-> | (-> & -> & t & -> & Ht)] & Hsecond).
    + cbn [visit]. again. rewrite Hsecond. unfold with_context. now rewrite Hs.
    + apply ret_inv in H0. destruct H0 as [_ ->].
      cbn [visit]. rewrite (@bind_ok _ _ _ _ _ _ _ (@stable_optional _ _ Ht)). again.
      rewrite Hsecond. unfold with_context. now rewrite Hs.
  - (* Parameters *)
    intros ps IH c n' c' H ctx. cbn [visit] in H. binds H.
    apply ret_inv in H. destruct H as [-> ->]. cbn [visit]. again. reflexivity.
  - (* FunctionDef *)
    intros ds f ps r b IHds IHps IHr IHb c n' c' H ctx. cbn [visit] in H. binds H.
    destruct (@visit_optional_shape _ _ _ _ H3) as (Hr & _ & _).
    destruct (@leave_FunctionDef_idem _ _ _ _ _ _ _ _ _ _ _ _ Hr H)
      as ([-> | (-> & -> & t & -> & Ht)] & Hsecond).
    + cbn [visit]. again. apply Hsecond.
    + apply ret_inv in H3. destruct H3 as [_ ->].
      cbn [visit]. again. rewrite (@bind_ok _ _ _ _ _ _ _ (@stable_optional _ _ Ht)). again.
      apply Hsecond.
  - (* Lambda *)
    intros ps b IHps IHb c n' c' H ctx. cbn [visit] in H. binds H.
    apply leave_Lambda_again in H. destruct H as [-> Hsecond].
    cbn [visit]. again. apply Hsecond.
  - (* Return *)
    intros v IH c n' c' H ctx. cbn [visit] in H. binds H.
    apply ret_inv in H. destruct H as [-> ->].
    destruct (@visit_optional_shape _ _ _ _ H1) as (Hv & _ & _).
    cbn [visit].
    rewrite (@bind_ok _ _ _ _ _ _ _ (@visit_Return_again _ _ _ _ ctx Hv H0)). again. reflexivity.
  - (* Raise *)
    intros e ca IHe IHc c n' c' H ctx. cbn [visit] in H. binds H.
    apply ret_inv in H. destruct H as [-> ->]. cbn [visit]. again. reflexivity.
  - (* Yield *)
    intros v IH c n' c' H ctx. cbn [visit] in H. binds H.
    apply ret_inv in H. destruct H as [-> ->]. cbn [visit]. again. reflexivity.
  - (* Other *)
    intros k cs IH c n' c' H ctx. cbn [visit] in H. binds H.
    apply ret_inv in H. destruct H as [-> ->]. cbn [visit]. again. reflexivity.
Qed.

Lemma transform_module_idempotent (cmd : AutotypeCommand) (tree tree' : node)
    (imports : list (string * string)) :
  transform_module cmd tree = Ok (tree', imports) ->
  transform_module cmd tree' = Ok (tree', context cmd).
Proof.
  unfold transform_module.
  destruct (visit tree cmd) as [[t c']|e] eqn:Hv; [|discriminate].
  intros H. injection H as <- _.
  assert (H2 := visit_settled tree). unfold settled in H2. specialize (H2 _ _ _ Hv (context cmd)).
  unfold with_context in H2. destruct cmd as [s ctx]. simpl in H2 |- *.
  now rewrite H2.
Qed.

Lemma init_context (optional named : option (list string)) (am ai nr bp : bool)
    (cmd : AutotypeCommand) :
  __init__ optional named am ai nr bp = Ok cmd -> context cmd = [].
Proof.
  unfold __init__.
  destruct (rules_of optional); [|discriminate].
  destruct (rules_of named); [|discriminate].
  intros H. now injection H as <-.
Qed.

(** C3: the codemod is idempotent: run again, with the same arguments, on
    the tree it returned, it returns that tree unchanged and requests no
    import, since a definition that has a return annotation and a
    parameter that has an annotation are returned as they are. *)
Theorem codemod_idempotent
    (annotate_optional annotate_named_param : option (list string))
    (am ai nr bp : bool) (tree tree' : node) (imports : list (string * string)) :
  codemod annotate_optional annotate_named_param am ai nr bp tree
  = Ok (tree', imports) ->
  codemod annotate_optional annotate_named_param am ai nr bp tree'
  = Ok (tree', []).
Proof.
  unfold codemod.
  destruct (__init__ annotate_optional annotate_named_param am ai nr bp)
    as [cmd|e] eqn:Hinit; [|discriminate].
  intros H. apply transform_module_idempotent in H.
  now rewrite (@init_context _ _ _ _ _ _ _ Hinit) in H.
Qed.

Lemma codemod_idempotent_witness :
  codemod (Some ["x:mymod.Foo"; "y:m.Y"]) (Some ["n:numbers.Number"])
          true true true true example_module
  = Ok (example_module_annotated,
        [("mymod", "Foo"); ("typing", "Optional"); ("typing", "Iterator");
         ("numbers", "Number")])
  /\ codemod (Some ["x:mymod.Foo"; "y:m.Y"]) (Some ["n:numbers.Number"])
             true true true true example_module_annotated
     = Ok (example_module_annotated, []).
Proof.
  split; [reflexivity|].
  apply (@codemod_idempotent
           (Some ["x:mymod.Foo"; "y:m.Y"]) (Some ["n:numbers.Number"])
           true true true true example_module example_module_annotated
           [("mymod", "Foo"); ("typing", "Optional"); ("typing", "Iterator");
            ("numbers", "Number")]).
  reflexivity.
Defined.

(** *** Import statements added to the output

    The requested imports end up as statements in the module body.  Such
    statements hold no node the command looks at, so the second run passes
    over them. *)

Lemma inert_stable_sequence (ns : list node) :
  Forall (fun n => inert n = true -> stable n) ns ->
  forallb inert ns = true ->
  forall c, visit_sequence visit ns c = Ok (ns, c).
Proof.
  induction 1 as [|x ns Hx _ IH]; intros H c; [reflexivity|].
  cbn in H. apply andb_prop in H. destruct H as [H1 H2].
  cbn. unfold bind. rewrite (Hx H1 c : visit x c = Ok (x, c)). now rewrite (IH H2 c).
Qed.

Lemma inert_stable (n : node) : inert n = true -> stable n.
Proof.
  revert n.
  apply (@node_induction (fun n => inert n = true -> stable n)); try discriminate.
  - intros v H c. reflexivity.
  - intros a IH H c. cbn [visit]. unfold bind.
    now rewrite (IH H c : visit a c = Ok (a, c)).
  - intros a IH H c. cbn [visit]. unfold bind.
    now rewrite (IH H c : visit a c = Ok (a, c)).
  - intros a IH H c. cbn [visit]. unfold bind.
    now rewrite (IH H c : visit a c = Ok (a, c)).
  - intros v sl IHv IHsl H c. cbn [inert] in H. apply andb_prop in H.
    destruct H as [Hv Hsl]. cbn [visit]. unfold bind.
    rewrite (IHv Hv c : visit v c = Ok (v, c)). now rewrite (inert_stable_sequence IHsl Hsl c).
  - intros k cs IH H c. cbn [inert] in H. cbn [visit]. unfold bind.
    now rewrite (inert_stable_sequence IH H c).
Qed.

Lemma visit_sequence_cons (x : node) (l : list node) :
  visit_sequence visit (x :: l)
  = (n' <- visit x ;; r' <- visit_sequence visit l ;; ret (n' :: r')).
Proof. reflexivity. Qed.

Lemma visit_sequence_app (l1 l2 : list node) (c : AutotypeCommand) :
  visit_sequence visit (l1 ++ l2) c
  = (a <- visit_sequence visit l1 ;; b <- visit_sequence visit l2 ;; ret (a ++ b)) c.
Proof.
  revert c. induction l1 as [|x l1 IH]; intros c.
  - cbn [app]. unfold bind, ret. cbn.
    destruct (visit_sequence visit l2 c) as [[b c']|]; reflexivity.
  - cbn [app]. rewrite !visit_sequence_cons. unfold bind in *.
    destruct (visit x c) as [[x' c1]|]; [|reflexivity].
    rewrite IH.
    destruct (visit_sequence visit l1 c1) as [[a c2]|]; [|reflexivity].
    unfold ret. cbn.
    destruct (visit_sequence visit l2 c2) as [[b c3]|]; reflexivity.
Qed.

Lemma visit_sequence_length (l l' : list node) (c c' : AutotypeCommand) :
  visit_sequence visit l c = Ok (l', c') -> List.length l' = List.length l.
Proof.
  revert l' c c'. induction l as [|x l IH]; intros l' c c' H; cbn in H.
  - apply ret_inv in H. now destruct H as [-> _].
  - apply bind_inv in H. destruct H as (x' & c1 & _ & H).
    apply bind_inv in H. destruct H as (l1 & c2 & Hl & H).
    apply ret_inv in H. destruct H as [-> _]. simpl. now rewrite (IH _ _ _ Hl).
Qed.

Lemma app_same_length {A : Type} (a a' b b' : list A) :
  List.length a = List.length a' -> a ++ b = a' ++ b' -> a = a' /\ b = b'.
Proof.
  revert a'. induction a as [|x a IH]; intros [|x' a'] Hl H; try discriminate.
  - auto.
  - injection H as -> H. injection Hl as Hl.
    destruct (IH a' Hl H) as [-> ->]. auto.
Qed.

(** Idempotence with the imports in place: statements without hooks
    inserted anywhere in the body of the returned module do not change what
    the second run returns. *)
Lemma codemod_idempotent_with_imports
    (annotate_optional annotate_named_param : option (list string))
    (am ai nr bp : bool) (tree : node) (k : string) (pre post news : list node)
    (imports : list (string * string)) :
  codemod annotate_optional annotate_named_param am ai nr bp tree
  = Ok (Other k (pre ++ post), imports) ->
  forallb inert news = true ->
  codemod annotate_optional annotate_named_param am ai nr bp
          (Other k (pre ++ news ++ post))
  = Ok (Other k (pre ++ news ++ post), []).
Proof.
  intros H Hnews. revert H. unfold codemod.
  destruct (__init__ annotate_optional annotate_named_param am ai nr bp)
    as [cmd|e] eqn:Hinit; [|discriminate].
  intros H. apply transform_module_idempotent in H.
  rewrite (@init_context _ _ _ _ _ _ _ Hinit) in H. revert H.
  unfold transform_module.
  destruct (visit (Other k (pre ++ post)) cmd) as [[t c']|e] eqn:Hv; [|discriminate].
  intros H. injection H as -> Hctx.
  cbn [visit] in Hv. apply bind_inv in Hv. destruct Hv as (body & c1 & Hv & Hr).
  apply ret_inv in Hr. destruct Hr as [Hb ->]. injection Hb as Hb.
  rewrite visit_sequence_app in Hv.
  apply bind_inv in Hv. destruct Hv as (pre' & c2 & Hpre & Hv).
  apply bind_inv in Hv. destruct Hv as (post' & c3 & Hpost & Hv).
  apply ret_inv in Hv. destruct Hv as [-> ->].
  assert (Hlen := @visit_sequence_length _ _ _ _ Hpre).
  destruct (app_same_length _ _ _ _ Hlen (eq_sym Hb)) as [-> ->].
  assert (Hn : forall c, visit_sequence visit news c = Ok (news, c)).
  { apply inert_stable_sequence; [|exact Hnews].
    apply Forall_forall. intros x _. apply inert_stable. }
  cbn [visit]. unfold bind at 1.
  rewrite visit_sequence_app. unfold bind at 1. rewrite Hpre.
  unfold bind at 1. rewrite visit_sequence_app. unfold bind at 1. rewrite Hn.
  unfold bind at 1. rewrite Hpost. unfold ret. cbn. now rewrite Hctx.
Qed.

(** * Further properties *)

(** ** [leave_Param] and [_annotate_param] *)

Lemma annotate_param_run (r : NamedParam) (u : node) (optional : bool)
    (c : AutotypeCommand) :
  _annotate_param r u optional c
  = Ok (with_annotation u (rule_annotation r optional),
        mkCommand (state c) (context c ++ rule_imports r optional)).
Proof.
  unfold _annotate_param, bind, add_needed_import, ret, rule_annotation, rule_imports.
  destruct optional; cbn; now rewrite <- ?app_assoc.
Qed.

Lemma scan_rules_cases (rules : list NamedParam) (x : string) (u : node)
    (optional : bool) (c : AutotypeCommand) :
  (Forall (fun q => name q <> x) rules
   /\ scan_rules rules x u optional c = Ok (u, c))
  \/ (exists r, first_rule rules x r
                /\ scan_rules rules x u optional c
                   = Ok (with_annotation u (rule_annotation r optional),
                         mkCommand (state c) (context c ++ rule_imports r optional))).
Proof.
  induction rules as [|q rules IH]; simpl.
  - left. split; [constructor | reflexivity].
  - destruct (String.eqb_spec x (name q)) as [Heq|Hne].
    + right. exists q. split.
      * exists [], rules. split; [reflexivity|]. split; [constructor | now symmetry].
      * apply annotate_param_run.
    + destruct IH as [[Hall Hs] | (r & (pre & post & -> & Hpre & Hr) & Hs)].
      * left. split; [|exact Hs]. constructor; [congruence | exact Hall].
      * right. exists r. split; [|exact Hs].
        exists (q :: pre), post. split; [reflexivity|]. split; [|exact Hr].
        constructor; [congruence | exact Hpre].
Qed.



(** X2: every change [leave_Param] makes comes from exactly one of its
    three rules, outside a lambda and on a parameter without annotation:
    the bool rule (no import), the first Optional rule of the parameter's
    name on a [None] default, or the first named-param rule of its name on
    a missing default.  Otherwise the node and the command come back as
    they were; in particular inside a lambda, on an annotated parameter,
    and on any other default (a number, a call, a bool literal with the
    toggle off), whatever rules are configured. *)
Theorem leave_Param_changes_by_one_rule
    (x : string) (a d : option node) (u : node) (c : AutotypeCommand) :
  (forall n' c',
      leave_Param (Param x a d) u c = Ok (n', c') ->
      (n' = u /\ c' = c)
      \/ (in_lambda (state c) = false /\ a = None
          /\ ((bool_param (state c) = true /\ default_is_bool d = true
               /\ n' = with_annotation u (Annotation (Name "bool")) /\ c' = c)
              \/ (default_is_none d = true
                  /\ exists r, first_rule (annotate_optionals (state c)) x r
                     /\ n' = with_annotation u (optional_of (type_name r))
                     /\ c' = mkCommand (state c)
                               (context c ++ [(module r, type_name r);
                                              ("typing", "Optional")]))
              \/ (d = None
                  /\ exists r, first_rule (annotate_named_params (state c)) x r
                     /\ n' = with_annotation u (Annotation (Name (type_name r)))
                     /\ c' = mkCommand (state c)
                               (context c ++ [(module r, type_name r)])))))
  /\ (in_lambda (state c) = true
      \/ a <> None
      \/ (d <> None /\ default_is_none d = false
          /\ (bool_param (state c) = false \/ default_is_bool d = false)) ->
      leave_Param (Param x a d) u c = Ok (u, c)).
Proof.
  assert (Hc : mkCommand (state c) (context c) = c) by now destruct c.
  unfold leave_Param, bind, get_state. split.
  - intros n' c'. destruct (in_lambda (state c)) eqn:Hl.
    { intros H. apply ret_inv in H. now left. }
    destruct a as [a|].
    { intros H. apply ret_inv in H. now left. }
    destruct (bool_param (state c)) eqn:Hbp; cbn [andb].
    + destruct (default_is_bool d) eqn:Hb.
      { intros H. apply ret_inv in H. destruct H as [-> ->].
        right. repeat split; auto. }
      destruct (default_is_none d) eqn:Hn.
      * destruct (scan_rules_cases (annotate_optionals (state c)) x u true c)
          as [[_ ->] | (r & Hr & ->)]; intros H; injection H as <- <-.
        -- now left.
        -- right. repeat split; auto. right. left. split; [reflexivity|].
           exists r. repeat split; auto.
      * destruct d as [d|].
        { intros H. apply ret_inv in H. now left. }
        destruct (scan_rules_cases (annotate_named_params (state c)) x u false c)
          as [[_ ->] | (r & Hr & ->)]; intros H; injection H as <- <-.
        -- now left.
        -- right. repeat split; auto. right. right. split; [reflexivity|].
           exists r. repeat split; auto.
    + destruct (default_is_none d) eqn:Hn.
      * destruct (scan_rules_cases (annotate_optionals (state c)) x u true c)
          as [[_ ->] | (r & Hr & ->)]; intros H; injection H as <- <-.
        -- now left.
        -- right. repeat split; auto. right. left. split; [reflexivity|].
           exists r. repeat split; auto.
      * destruct d as [d|].
        { intros H. apply ret_inv in H. now left. }
        destruct (scan_rules_cases (annotate_named_params (state c)) x u false c)
          as [[_ ->] | (r & Hr & ->)]; intros H; injection H as <- <-.
        -- now left.
        -- right. repeat split; auto. right. right. split; [reflexivity|].
           exists r. repeat split; auto.
  - intros [Hl | [Ha | (Hd & Hn & Hb)]].
    + now rewrite Hl.
    + destruct (in_lambda (state c)); [reflexivity|].
      destruct a as [a|]; [reflexivity | contradiction].
    + destruct (in_lambda (state c)); [reflexivity|].
      destruct a as [a|]; [reflexivity|].
      assert (Hbb : bool_param (state c) && default_is_bool d = false).
      { destruct Hb as [-> | ->]; [reflexivity | apply andb_false_r]. }
      rewrite Hbb, Hn. destruct d; [reflexivity | contradiction].
Qed.

Lemma leave_Param_changes_by_one_rule_witness :
  leave_Param (Param "n" None (Some (Other "Integer" [])))
    (Param "n" None (Some (Other "Integer" [])))
    (mkCommand (mkState [mkNamedParam "n" "o" "O"] [mkNamedParam "n" "numbers" "Number"]
                        true true true true [false] [false] [false] false) [])
  = Ok (Param "n" None (Some (Other "Integer" [])),
        mkCommand (mkState [mkNamedParam "n" "o" "O"] [mkNamedParam "n" "numbers" "Number"]
                           true true true true [false] [false] [false] false) []).
Proof.
  apply (proj2 (leave_Param_changes_by_one_rule "n" None (Some (Other "Integer" []))
                  (Param "n" None (Some (Other "Integer" [])))
                  (mkCommand (mkState [mkNamedParam "n" "o" "O"]
                                      [mkNamedParam "n" "numbers" "Number"]
                                      true true true true [false] [false] [false] false) []))).
  right. right. split; [discriminate|]. split; [reflexivity|]. right. reflexivity.
Defined.

(** ** [leave_FunctionDef] as pops followed by a table look-up *)

Lemma pops_run {A : Type} (k : bool -> bool -> bool -> M A) (c : AutotypeCommand) :
  (x <- pop_seen_return_statement ;; y <- pop_seen_raise_statement ;;
   z <- pop_seen_yield ;; k x y z) c
  = match pop_frames (state c) with
    | Some (x, y, z, s) => k x y z (mkCommand s (context c))
    | None => Err IndexError
    end.
Proof.
  unfold pop_frames, pop_seen_return_statement, pop_seen_raise_statement,
    pop_seen_yield, bind, get_state, lift_index, put_state, ret.
  cbn [state context].
  destruct (Py.pop (seen_return_statement (state c))) as [[x l1]|]; [|reflexivity].
  cbn.
  destruct (Py.pop (seen_raise_statement (state c))) as [[y l2]|]; [|reflexivity].
  cbn.
  destruct (Py.pop (seen_yield (state c))) as [[z l3]|]; reflexivity.
Qed.

Lemma pop_frames_config (s s' : State) (x y z : bool) :
  pop_frames s = Some (x, y, z, s') ->
  annotate_optionals s' = annotate_optionals s
  /\ annotate_named_params s' = annotate_named_params s
  /\ annotate_magics s' = annotate_magics s
  /\ annotate_imprecise_magics s' = annotate_imprecise_magics s
  /\ none_return s' = none_return s
  /\ bool_param s' = bool_param s
  /\ in_lambda s' = in_lambda s.
Proof.
  unfold pop_frames.
  destruct (Py.pop (seen_return_statement s)) as [[? ?]|]; [|discriminate].
  destruct (Py.pop (seen_raise_statement s)) as [[? ?]|]; [|discriminate].
  destruct (Py.pop (seen_yield s)) as [[? ?]|]; [|discriminate].
  intros H. injection H as <- <- <- <-. cbn. repeat split.
Qed.

Lemma leave_FunctionDef_run (ds : list node) (f : string) (ps : node)
    (r : option node) (b u : node) (c : AutotypeCommand) :
  leave_FunctionDef (FunctionDef ds f ps r b) u c
  = match pop_frames (state c) with
    | None => Err IndexError
    | Some (sr, se, sy, s) =>
        match r with
        | Some _ => Ok (u, mkCommand s (context c))
        | None =>
            match return_rule s sr se sy f with
            | Some (ty, imps) =>
                Ok (with_returns u (Annotation (Name ty)),
                    mkCommand s (context c ++ imps))
            | None => Ok (u, mkCommand s (context c))
            end
        end
    end.
Proof.
  unfold leave_FunctionDef.
  rewrite (pops_run (fun x y z => s <- get_state ;; _)).
  destruct (pop_frames (state c)) as [[[[sr se] sy] s]|]; [|reflexivity].
  unfold bind, get_state. cbn [state].
  destruct r as [r|]; [reflexivity|].
  unfold return_rule.
  destruct (none_return s && negb se && negb sr && negb sy).
  { unfold ret. now rewrite app_nil_r. }
  destruct (annotate_magics s).
  - destruct (Py.get SIMPLE_MAGICS f) as [ty|].
    + unfold ret. now rewrite app_nil_r.
    + destruct (annotate_imprecise_magics s); [|reflexivity].
      destruct (Py.get IMPRECISE_MAGICS f) as [[md sym]|]; reflexivity.
  - destruct (annotate_imprecise_magics s); [|reflexivity].
    destruct (Py.get IMPRECISE_MAGICS f) as [[md sym]|]; reflexivity.
Qed.

(** ** Empty stacks *)





(** ** Only empty annotation slots change *)

Lemma rule_annotation_inert (r : NamedParam) (optional : bool) :
  inert (rule_annotation r optional) = true.
Proof. destruct optional; reflexivity. Qed.

(** What [leave_Param] does to the command and to the node, for the
    induction over trees. *)
Lemma leave_Param_effect (x : string) (a d : option node) (u : node)
    (c c' : AutotypeCommand) (n' : node) :
  leave_Param (Param x a d) u c = Ok (n', c') ->
  state c' = state c
  /\ ((n' = u /\ c' = c)
      \/ (in_lambda (state c) = false /\ a = None
          /\ exists t, inert t = true /\ n' = with_annotation u t
             /\ (context c' = context c
                 \/ exists r, In r (annotate_optionals (state c)
                                    ++ annotate_named_params (state c))
                    /\ (context c' = context c ++ [(module r, type_name r)]
                        \/ context c' = context c ++ [(module r, type_name r);
                                                      ("typing", "Optional")])))).
Proof.
  unfold leave_Param, bind, get_state.
  assert (Hret : ret u c = Ok (n', c') ->
                 state c' = state c /\ ((n' = u /\ c' = c) \/ False)).
  { intros H. apply ret_inv in H. destruct H as [-> ->]. auto. }
  assert (Hweak : forall Q : Prop,
             state c' = state c /\ ((n' = u /\ c' = c) \/ False) ->
             state c' = state c /\ ((n' = u /\ c' = c) \/ Q)).
  { intros Q [H1 [H2 | []]]. auto. }
  destruct (in_lambda (state c)) eqn:Hl; [intros H; now apply Hweak, Hret|].
  destruct a as [a|]; [intros H; now apply Hweak, Hret|].
  destruct (bool_param (state c) && default_is_bool d).
  { intros H. apply ret_inv in H. destruct H as [-> ->].
    split; [reflexivity|]. right. repeat split; auto.
    eexists. split; [|split; [reflexivity|now left]]. reflexivity. }
  assert (Hscan : forall rules optional,
             (forall r, In r rules ->
                        In r (annotate_optionals (state c)
                              ++ annotate_named_params (state c))) ->
             scan_rules rules x u optional c = Ok (n', c') ->
             state c' = state c
             /\ ((n' = u /\ c' = c)
                 \/ (false = false /\ @None node = None
                     /\ exists t, inert t = true /\ n' = with_annotation u t
                        /\ (context c' = context c
                            \/ exists r, In r (annotate_optionals (state c)
                                               ++ annotate_named_params (state c))
                               /\ (context c' = context c ++ [(module r, type_name r)]
                                   \/ context c'
                                      = context c ++ [(module r, type_name r);
                                                      ("typing", "Optional")]))))).
  { intros rules optional Hin.
    destruct (scan_rules_cases rules x u optional c)
      as [[_ ->] | (r & (pre & post & -> & _ & _) & ->)];
      intros H; injection H as <- <-.
    - auto.
    - split; [reflexivity|]. right. repeat split; auto.
      exists (rule_annotation r optional).
      split; [apply rule_annotation_inert|]. split; [reflexivity|].
      right. exists r. split; [apply Hin, in_elt|].
      destruct optional; cbn; auto. }
  destruct (default_is_none d).
  { apply Hscan. intros r Hr. apply in_or_app. now left. }
  destruct d as [d|]; [intros H; now apply Hweak, Hret|].
  apply Hscan. intros r Hr. apply in_or_app. now right.
Qed.






(** ** Configuration and import requests along a traversal *)

Lemma same_config_refl (s : State) : same_config s s.
Proof. unfold same_config. repeat split. Qed.

Lemma same_config_trans (s1 s2 s3 : State) :
  same_config s1 s2 -> same_config s2 s3 -> same_config s1 s3.
Proof.
  unfold same_config.
  intros (A1 & A2 & A3 & A4 & A5 & A6) (B1 & B2 & B3 & B4 & B5 & B6).
  repeat split; congruence.
Qed.

Lemma allowed_import_config (s s' : State) (i : string * string) :
  same_config s s' -> allowed_import s' i -> allowed_import s i.
Proof.
  unfold same_config, allowed_import. intros (A1 & A2 & _).
  now rewrite A1, A2.
Qed.

Lemma appends_ret {A : Type} (a : A) : appends (ret a).
Proof.
  intros c a0 c' H. apply ret_inv in H. destruct H as [_ ->].
  split; [apply same_config_refl|]. exists []. now rewrite app_nil_r.
Qed.

Lemma appends_bind {A B : Type} (m : M A) (k : A -> M B) :
  appends m -> (forall a, appends (k a)) -> appends (bind m k).
Proof.
  intros Hm Hk c b c' H. apply bind_inv in H. destruct H as (a & c1 & H1 & H2).
  destruct (Hm _ _ _ H1) as (S1 & i1 & E1 & F1).
  destruct (Hk a _ _ _ H2) as (S2 & i2 & E2 & F2).
  split; [eapply same_config_trans; eassumption|].
  exists (i1 ++ i2). split; [now rewrite E2, E1, app_assoc|].
  apply Forall_app. split; [exact F1|].
  eapply Forall_impl; [|exact F2]. intros i. now apply allowed_import_config.
Qed.

(** A hook that only rewrites stacks or the lambda flag. *)
Lemma appends_state_only {A : Type} (m : M A) :
  (forall c a c', m c = Ok (a, c') ->
                  same_config (state c) (state c') /\ context c' = context c) ->
  appends m.
Proof.
  intros Hm c a c' H. destruct (Hm _ _ _ H) as [S E].
  split; [exact S|]. exists []. now rewrite app_nil_r.
Qed.

Lemma appends_visit_FunctionDef (n : node) : appends (visit_FunctionDef n).
Proof.
  apply appends_state_only. intros c a c'.
  unfold visit_FunctionDef, bind, get_state, put_state. cbn.
  intros H. injection H as _ <-.
  split; [unfold same_config; cbn; repeat split | reflexivity].
Qed.

Lemma appends_visit_Return (n : node) : appends (visit_Return n).
Proof.
  apply appends_state_only. intros c a c'.
  destruct n as [ | | | | | | | | |[v|]| | | ]; simpl;
    try (intros H; apply ret_inv in H; destruct H as [_ ->];
         split; [apply same_config_refl|reflexivity]).
  unfold bind, get_state, lift_index, put_state.
  destruct (Py.set_last (seen_return_statement (state c)) true); [|discriminate].
  intros H. injection H as _ <-.
  split; [unfold same_config; cbn; repeat split | reflexivity].
Qed.

Lemma appends_visit_Raise (n : node) : appends (visit_Raise n).
Proof.
  apply appends_state_only. intros c a c'.
  unfold visit_Raise, bind, get_state, lift_index, put_state.
  destruct (Py.set_last (seen_raise_statement (state c)) true); [|discriminate].
  intros H. injection H as _ <-.
  split; [unfold same_config; cbn; repeat split | reflexivity].
Qed.

Lemma appends_visit_Yield (n : node) : appends (visit_Yield n).
Proof.
  apply appends_state_only. intros c a c'.
  unfold visit_Yield, bind, get_state, lift_index, put_state.
  destruct (Py.set_last (seen_yield (state c)) true); [|discriminate].
  intros H. injection H as _ <-.
  split; [unfold same_config; cbn; repeat split | reflexivity].
Qed.

Lemma appends_visit_Lambda (n : node) : appends (visit_Lambda n).
Proof.
  apply appends_state_only. intros c a c'.
  unfold visit_Lambda, bind, get_state, put_state. cbn.
  intros H. injection H as _ <-.
  split; [unfold same_config; cbn; repeat split | reflexivity].
Qed.

Lemma appends_leave_Lambda (o u : node) : appends (leave_Lambda o u).
Proof.
  apply appends_state_only. intros c a c'.
  unfold leave_Lambda, bind, get_state, put_state, ret. cbn.
  intros H. injection H as _ <-.
  split; [unfold same_config; cbn; repeat split | reflexivity].
Qed.

Lemma appends_leave_Param (x : string) (a d : option node) (u : node) :
  appends (leave_Param (Param x a d) u).
Proof.
  intros c n' c' H. apply leave_Param_effect in H.
  destruct H as [Hs [[_ ->] | (_ & _ & t & _ & _ & Hctx)]].
  - split; [apply same_config_refl|]. exists []. now rewrite app_nil_r.
  - split; [rewrite Hs; apply same_config_refl|].
    destruct Hctx as [-> | (r & Hin & [-> | ->])].
    + exists []. now rewrite app_nil_r.
    + eexists. split; [reflexivity|]. constructor; [|constructor].
      right. right. now exists r.
    + eexists. split; [reflexivity|]. constructor; [|constructor; [|constructor]].
      * right. right. now exists r.
      * now left.
Qed.

Lemma return_rule_imports (s : State) (sr se sy : bool) (f ty : string)
    (imps : list (string * string)) :
  return_rule s sr se sy f = Some (ty, imps) ->
  imps = [] \/ exists i, imps = [i] /\ In i (map snd IMPRECISE_MAGICS).
Proof.
  unfold return_rule.
  destruct (none_return s && negb se && negb sr && negb sy).
  { intros H. injection H as _ <-. now left. }
  destruct (if annotate_magics s then Py.get SIMPLE_MAGICS f else None).
  { intros H. injection H as _ <-. now left. }
  destruct (annotate_imprecise_magics s); [|discriminate].
  destruct (Py.get IMPRECISE_MAGICS f) as [[md sym]|] eqn:Hg; [|discriminate].
  intros H. injection H as _ <-. right. exists (md, sym). split; [reflexivity|].
  clear -Hg. revert Hg. generalize IMPRECISE_MAGICS.
  induction l as [|[k v] l IH]; simpl; [discriminate|].
  destruct (String.eqb f k).
  - intros H. injection H as ->. now left.
  - intros H. right. now apply IH.
Qed.

Lemma appends_leave_FunctionDef (ds : list node) (f : string) (ps : node)
    (r : option node) (b u : node) :
  appends (leave_FunctionDef (FunctionDef ds f ps r b) u).
Proof.
  intros c n' c'. rewrite leave_FunctionDef_run.
  destruct (pop_frames (state c)) as [[[[sr se] sy] s]|] eqn:Hp; [|discriminate].
  destruct (pop_frames_config _ Hp) as (A1 & A2 & A3 & A4 & A5 & A6 & _).
  assert (S : same_config (state c) s) by (unfold same_config; repeat split; assumption).
  destruct r as [r|].
  { intros H. injection H as _ <-. cbn. split; [exact S|].
    exists []. now rewrite app_nil_r. }
  destruct (return_rule s sr se sy f) as [[ty imps]|] eqn:Hr.
  - intros H. injection H as _ <-. cbn. split; [exact S|].
    exists imps. split; [reflexivity|].
    destruct (return_rule_imports _ _ _ _ _ Hr) as [-> | (i & -> & Hi)].
    + constructor.
    + constructor; [|constructor]. right. now left.
  - intros H. injection H as _ <-. cbn. split; [exact S|].
    exists []. now rewrite app_nil_r.
Qed.

Lemma appends_visit_optional (o : option node) :
  opt_all (fun n => appends (visit n)) o -> appends (visit_optional visit o).
Proof.
  destruct o as [n|]; simpl; intros H.
  - apply appends_bind; [exact H|]. intros a. apply appends_ret.
  - apply appends_ret.
Qed.

Lemma appends_visit_sequence (ns : list node) :
  Forall (fun n => appends (visit n)) ns -> appends (visit_sequence visit ns).
Proof.
  induction 1 as [|n ns Hn _ IH]; simpl.
  - apply appends_ret.
  - apply appends_bind; [exact Hn|]. intros n'.
    apply appends_bind; [exact IH|]. intros ns'. apply appends_ret.
Qed.

Local Ltac appends_step :=
  first
    [ assumption
    | apply appends_ret
    | apply appends_leave_Param
    | apply appends_leave_FunctionDef
    | apply appends_leave_Lambda
    | apply appends_visit_FunctionDef
    | apply appends_visit_Lambda
    | apply appends_visit_Return
    | apply appends_visit_Raise
    | apply appends_visit_Yield
    | apply appends_visit_optional; assumption
    | apply appends_visit_sequence; assumption
    | apply appends_bind; [|intro] ].

Lemma visit_appends (n : node) : appends (visit n).
Proof.
  revert n. apply (@node_induction (fun n => appends (visit n)));
    intros; cbn [visit]; repeat appends_step.
Qed.

(** ** The command built by [__init__] *)

Lemma make_all_parsed (l : list string) (rs : list NamedParam) :
  make_all l = Ok rs -> Forall2 (fun s r => make s = Ok r) l rs.
Proof.
  revert rs. induction l as [|s l IH]; simpl; intros rs H.
  - injection H as <-. constructor.
  - destruct (make s) as [r|] eqn:Hs; [|discriminate].
    destruct (make_all l) as [rs'|]; [|discriminate].
    injection H as <-. constructor; [exact Hs | now apply IH].
Qed.

Lemma rules_of_parsed (arg : option (list string)) (rs : list NamedParam) :
  rules_of arg = Ok rs -> Forall2 (fun s r => make s = Ok r) (strings_of arg) rs.
Proof.
  destruct arg as [l|]; simpl.
  - apply make_all_parsed.
  - intros H. injection H as <-. constructor.
Qed.


Lemma Forall2_In_right {A B : Type} (R : A -> B -> Prop) (l : list A) (l' : list B)
    (b : B) :
  Forall2 R l l' -> In b l' -> exists a, In a l /\ R a b.
Proof.
  induction 1 as [|x y l l' Hxy _ IH]; simpl; [contradiction|].
  intros [<- | Hin].
  - exists x. auto.
  - destruct (IH Hin) as (a & Ha & Hr). exists a. auto.
Qed.

(** X5: [__init__] succeeds exactly when every rule string of both
    arguments parses; the command it returns then holds one rule per
    string, in the order given, each the parse of its string, the four
    toggles as passed, the lambda flag off and no import request.  An
    absent argument and an empty list both give no rules. *)
Theorem init_parses_every_rule
    (annotate_optional annotate_named_param : option (list string))
    (am ai nr bp : bool) :
  ((exists cmd, __init__ annotate_optional annotate_named_param am ai nr bp = Ok cmd)
   <-> forall s, In s (strings_of annotate_optional ++ strings_of annotate_named_param)
                 -> exists r, make s = Ok r)
  /\ (forall cmd,
         __init__ annotate_optional annotate_named_param am ai nr bp = Ok cmd ->
         Forall2 (fun s r => make s = Ok r)
                 (strings_of annotate_optional) (annotate_optionals (state cmd))
         /\ Forall2 (fun s r => make s = Ok r)
                    (strings_of annotate_named_param)
                    (annotate_named_params (state cmd))
         /\ annotate_magics (state cmd) = am
         /\ annotate_imprecise_magics (state cmd) = ai
         /\ none_return (state cmd) = nr
         /\ bool_param (state cmd) = bp
         /\ in_lambda (state cmd) = false
         /\ context cmd = []).
Proof.
  split; [split|].
  - intros [cmd H] s Hin. unfold __init__ in H.
    destruct (rules_of annotate_optional) as [os|] eqn:Ho; [|discriminate].
    destruct (rules_of annotate_named_param) as [ns|] eqn:Hn; [|discriminate].
    apply rules_of_parsed in Ho, Hn. apply in_app_or in Hin.
    destruct Hin as [Hin | Hin].
    + clear -Ho Hin. induction Ho as [|x r l rs Hx _ IH]; [contradiction|].
      destruct Hin as [<- | Hin]; [now exists r | now apply IH].
    + clear -Hn Hin. induction Hn as [|x r l rs Hx _ IH]; [contradiction|].
      destruct Hin as [<- | Hin]; [now exists r | now apply IH].
  - intros H.
    destruct (@wellformed_rules_construct annotate_optional annotate_named_param
                am ai nr bp H) as (os & ns & Hinit & _).
    eexists. exact Hinit.
  - intros cmd H. unfold __init__ in H.
    destruct (rules_of annotate_optional) as [os|] eqn:Ho; [|discriminate].
    destruct (rules_of annotate_named_param) as [ns|] eqn:Hn; [|discriminate].
    injection H as <-. cbn.
    repeat split; auto using rules_of_parsed.
Qed.

Lemma init_parses_every_rule_witness :
  exists cmd,
    __init__ (Some ["x:mymod.Foo"; ":a.b.C"]) (Some []) true false true false = Ok cmd
    /\ annotate_optionals (state cmd)
       = [mkNamedParam "x" "mymod" "Foo"; mkNamedParam "" "a.b" "C"]
    /\ annotate_named_params (state cmd) = [].
Proof.
  destruct (proj2 (proj1 (init_parses_every_rule
                            (Some ["x:mymod.Foo"; ":a.b.C"]) (Some [])
                            true false true false)))
    as [cmd Hcmd].
  - intros s [<- | [<- | []]]; eexists; reflexivity.
  - exists cmd. split; [exact Hcmd|].
    vm_compute in Hcmd. injection Hcmd as <-. split; reflexivity.
Defined.

(** ** What an invocation can fail with, and what it can request *)



(** X7: a traversal never touches the configuration, and never removes or
    reorders import requests: it appends to them, and what an invocation
    requests is [Optional] from [typing], an entry of [IMPRECISE_MAGICS],
    or the (module, type_name) parsed from one of the rule strings it was
    given. *)
Theorem requests_come_from_rules_and_tables :
  (forall n c n' c',
      visit n c = Ok (n', c') ->
      same_config (state c) (state c')
      /\ exists imps, context c' = context c ++ imps
                      /\ Forall (allowed_import (state c)) imps)
  /\ (forall annotate_optional annotate_named_param am ai nr bp tree tree' imports,
         codemod annotate_optional annotate_named_param am ai nr bp tree
         = Ok (tree', imports) ->
         Forall (fun i =>
                   i = ("typing", "Optional")
                   \/ In i (map snd IMPRECISE_MAGICS)
                   \/ exists s r,
                       In s (strings_of annotate_optional
                             ++ strings_of annotate_named_param)
                       /\ make s = Ok r /\ i = (module r, type_name r))
                imports).
Proof.
  split.
  - intros n c n' c' H. exact (@visit_appends n c n' c' H).
  - intros ao an am ai nr bp tree tree' imports. unfold codemod, __init__.
    destruct (rules_of ao) as [os|] eqn:Ho; [|discriminate].
    destruct (rules_of an) as [ns|] eqn:Hn; [|discriminate].
    apply rules_of_parsed in Ho, Hn.
    unfold transform_module.
    destruct (visit tree _) as [[t c']|] eqn:Hv; [|discriminate].
    intros H. injection H as _ <-.
    destruct (@visit_appends tree _ _ _ Hv) as (_ & imps & -> & Hall).
    cbn [context app]. eapply Forall_impl; [|exact Hall].
    intros i [Hi | [Hi | (r & Hin & Hi)]]; [now left | now right; left |].
    right. right. cbn [state annotate_optionals annotate_named_params] in Hin.
    apply in_app_or in Hin. destruct Hin as [Hin | Hin].
    + destruct (@Forall2_In_right _ _ _ _ _ _ Ho Hin) as (s & Hs & Hr).
      exists s, r. repeat split; auto. apply in_or_app. now left.
    + destruct (@Forall2_In_right _ _ _ _ _ _ Hn Hin) as (s & Hs & Hr).
      exists s, r. repeat split; auto. apply in_or_app. now right.
Qed.

(** ** Without options *)

Lemma no_option_same_config (s s' : State) :
  same_config s s' -> no_option s -> no_option s'.
Proof.
  unfold same_config, no_option.
  intros (A1 & A2 & A3 & A4 & A5 & A6) (B1 & B2 & B3 & B4 & B5 & B6).
  repeat split; congruence.
Qed.

Lemma idle_ret {A : Type} (a : A) : idle (ret a) a.
Proof.
  intros c a0 c' Hoff H. apply ret_inv in H. destruct H as [-> ->]. auto.
Qed.

Lemma idle_bind {A B : Type} (m : M A) (k : A -> M B) (a0 : A) (b0 : B) :
  idle m a0 -> idle (k a0) b0 -> idle (bind m k) b0.
Proof.
  intros Hm Hk c b c' Hoff H. apply bind_inv in H.
  destruct H as (a & c1 & H1 & H2).
  destruct (Hm _ _ _ Hoff H1) as (-> & E1 & O1).
  destruct (Hk _ _ _ O1 H2) as (-> & E2 & O2).
  split; [reflexivity|]. split; [congruence | exact O2].
Qed.

(** A hook that requests nothing is idle, by what [appends] tells about
    its configuration. *)
Lemma idle_state_only {A : Type} (m : M A) (a0 : A) :
  appends m ->
  (forall c a c', m c = Ok (a, c') -> a = a0 /\ context c' = context c) ->
  idle m a0.
Proof.
  intros Ha Hm c a c' Hoff H.
  destruct (Hm _ _ _ H) as [-> E]. destruct (Ha _ _ _ H) as [S _].
  split; [reflexivity|]. split; [exact E|].
  eapply no_option_same_config; eassumption.
Qed.

Lemma idle_unit (m : M unit) :
  appends m ->
  (forall c a c', m c = Ok (a, c') -> context c' = context c) ->
  idle m tt.
Proof.
  intros Ha Hm. apply idle_state_only; [exact Ha|].
  intros c [] c' H. split; [reflexivity | eapply Hm, H].
Qed.

Lemma idle_visit_FunctionDef (n : node) : idle (visit_FunctionDef n) tt.
Proof.
  apply idle_unit; [apply appends_visit_FunctionDef|]. intros c a c'.
  unfold visit_FunctionDef, bind, get_state, put_state. cbn.
  intros H. now injection H as _ <-.
Qed.

Lemma idle_visit_Return (n : node) : idle (visit_Return n) tt.
Proof.
  apply idle_unit; [apply appends_visit_Return|]. intros c a c'.
  destruct n as [ | | | | | | | | |[v|]| | | ]; simpl;
    try (intros H; apply ret_inv in H; now destruct H as [_ ->]).
  unfold bind, get_state, lift_index, put_state.
  destruct (Py.set_last (seen_return_statement (state c)) true); [|discriminate].
  intros H. now injection H as _ <-.
Qed.

Lemma idle_visit_Raise (n : node) : idle (visit_Raise n) tt.
Proof.
  apply idle_unit; [apply appends_visit_Raise|]. intros c a c'.
  unfold visit_Raise, bind, get_state, lift_index, put_state.
  destruct (Py.set_last (seen_raise_statement (state c)) true); [|discriminate].
  intros H. now injection H as _ <-.
Qed.

Lemma idle_visit_Yield (n : node) : idle (visit_Yield n) tt.
Proof.
  apply idle_unit; [apply appends_visit_Yield|]. intros c a c'.
  unfold visit_Yield, bind, get_state, lift_index, put_state.
  destruct (Py.set_last (seen_yield (state c)) true); [|discriminate].
  intros H. now injection H as _ <-.
Qed.

Lemma idle_visit_Lambda (n : node) : idle (visit_Lambda n) tt.
Proof.
  apply idle_unit; [apply appends_visit_Lambda|]. intros c a c'.
  unfold visit_Lambda, bind, get_state, put_state. cbn.
  intros H. now injection H as _ <-.
Qed.

Lemma idle_leave_Lambda (o u : node) : idle (leave_Lambda o u) u.
Proof.
  apply idle_state_only; [apply appends_leave_Lambda|]. intros c a c'.
  unfold leave_Lambda, bind, get_state, put_state, ret. cbn.
  intros H. now injection H as <- <-.
Qed.

Lemma idle_leave_Param (o u : node) : idle (leave_Param o u) u.
Proof.
  intros c n' c' Hoff. assert (Hoff' := Hoff).
  destruct Hoff' as (O1 & O2 & O3 & O4 & O5 & O6).
  unfold leave_Param, bind, get_state. rewrite O1, O2, O6. cbn [andb scan_rules].
  assert (Hret : ret u c = Ok (n', c') ->
                 n' = u /\ context c' = context c /\ no_option (state c')).
  { intros H. apply ret_inv in H. destruct H as [-> ->]. auto. }
  destruct (in_lambda (state c)); [exact Hret|].
  destruct o as [ | | | | |x [a|] d| | | | | | | ]; try exact Hret.
  destruct (default_is_none d); [exact Hret|].
  destruct d; exact Hret.
Qed.

Lemma idle_leave_FunctionDef (o u : node) : idle (leave_FunctionDef o u) u.
Proof.
  intros c n' c' Hoff. unfold leave_FunctionDef.
  rewrite (pops_run (fun x y z => s <- get_state ;; _)).
  destruct (pop_frames (state c)) as [[[[sr se] sy] s]|] eqn:Hp; [|discriminate].
  destruct (pop_frames_config _ Hp) as (A1 & A2 & A3 & A4 & A5 & A6 & _).
  destruct Hoff as (O1 & O2 & O3 & O4 & O5 & O6).
  assert (Hoff' : no_option s) by (unfold no_option; repeat split; congruence).
  unfold bind, get_state. cbn [state].
  assert (Hret : ret u (mkCommand s (context c)) = Ok (n', c') ->
                 n' = u /\ context c' = context c /\ no_option (state c')).
  { intros H. apply ret_inv in H. destruct H as [-> ->]. auto. }
  destruct o as [ | | | | | | |ds f ps [r|] bd| | | | | ]; try exact Hret.
  rewrite A5, A3, A4, O5, O3, O4. cbn [andb]. exact Hret.
Qed.

Lemma idle_visit_optional (o : option node) :
  opt_all (fun n => idle (visit n) n) o -> idle (visit_optional visit o) o.
Proof.
  destruct o as [n|]; simpl; intros H.
  - eapply idle_bind; [exact H | apply idle_ret].
  - apply idle_ret.
Qed.

Lemma idle_visit_sequence (ns : list node) :
  Forall (fun n => idle (visit n) n) ns -> idle (visit_sequence visit ns) ns.
Proof.
  induction 1 as [|n ns Hn _ IH]; simpl.
  - apply idle_ret.
  - eapply idle_bind; [exact Hn|].
    eapply idle_bind; [exact IH | apply idle_ret].
Qed.

Local Ltac idle_step :=
  first
    [ eassumption
    | apply idle_ret
    | apply idle_leave_Param
    | apply idle_leave_FunctionDef
    | apply idle_leave_Lambda
    | apply idle_visit_FunctionDef
    | apply idle_visit_Lambda
    | apply idle_visit_Return
    | apply idle_visit_Raise
    | apply idle_visit_Yield
    | apply idle_visit_optional; assumption
    | apply idle_visit_sequence; assumption
    | eapply idle_bind ].

Lemma visit_idle (n : node) : idle (visit n) n.
Proof.
  revert n. apply (@node_induction (fun n => idle (visit n) n));
    intros; cbn [visit]; repeat idle_step.
Qed.

(** X8: with no rule and every toggle off the codemod is the identity: it
    returns the tree it was given and requests no import, for every tree.
    An absent rule argument and an empty one count the same. *)
Theorem codemod_without_options_is_identity
    (annotate_optional annotate_named_param : option (list string)) (tree : node) :
  strings_of annotate_optional = [] -> strings_of annotate_named_param = [] ->
  codemod annotate_optional annotate_named_param false false false false tree
  = Ok (tree, []).
Proof.
  intros Ho Hn. unfold codemod, __init__.
  assert (Hrules : forall arg, strings_of arg = [] -> rules_of arg = Ok []).
  { intros [l|]; simpl; [intros ->|]; reflexivity. }
  rewrite (Hrules _ Ho), (Hrules _ Hn). unfold transform_module.
  destruct (visit_framed [] [] false false false false tree false)
    as (t' & l' & imps & H).
  specialize (H [] false [] false [] false []). cbn [app] in H. rewrite H.
  assert (Hoff : no_option
                   (mkState [] [] false false false false [false] [false] [false] false))
    by (unfold no_option; cbn; repeat split).
  assert (Hi := visit_idle tree). unfold idle in Hi.
  destruct ((fun Hc => Hi _ _ _ Hc H) Hoff) as (-> & E & _).
  cbn [context] in *. now rewrite E.
Qed.

Lemma codemod_without_options_is_identity_witness :
  codemod None (Some []) false false false false example_module
  = Ok (example_module, []).
Proof.
  apply (codemod_without_options_is_identity None (Some []) example_module);
    reflexivity.
Defined.

(** ** The return annotation of a definition, from its own scope *)

Lemma pop_frames_app (ao an : list NamedParam) (am ai nr bp : bool)
    (R E Y : list bool) (x y z l : bool) :
  pop_frames (mkState ao an am ai nr bp (R ++ [x]) (E ++ [y]) (Y ++ [z]) l)
  = Some (x, y, z, mkState ao an am ai nr bp R E Y l).
Proof.
  unfold pop_frames. cbn. now rewrite !PyFacts.pop_app.
Qed.

Lemma visit_unannotated_FunctionDef (ao an : list NamedParam) (am ai nr bp : bool)
    (ds : list node) (f : string) (ps b : node) (l : bool) :
  exists ds' ps' b' l' imps,
    forall (R E Y : list bool) (ctx : list (string * string)),
      visit (FunctionDef ds f ps None b)
            (mkCommand (mkState ao an am ai nr bp R E Y l) ctx)
      = match return_rule (mkState ao an am ai nr bp R E Y l')
                (scope_records SeenReturn ds ps None b)
                (scope_records SeenRaise ds ps None b)
                (scope_records SeenYield ds ps None b) f with
        | Some (ty, req) =>
            Ok (FunctionDef ds' f ps' (Some (Annotation (Name ty))) b',
                mkCommand (mkState ao an am ai nr bp R E Y l') (ctx ++ imps ++ req))
        | None =>
            Ok (FunctionDef ds' f ps' None b',
                mkCommand (mkState ao an am ai nr bp R E Y l') (ctx ++ imps))
        end.
Proof.
  assert (Hds : Forall (visits ao an am ai nr bp) ds).
  { apply Forall_forall. intros x _. apply visit_framed. }
  apply framed_visit_sequence in Hds.
  destruct (Hds l) as (ds' & l1 & i1 & H1).
  destruct (visit_framed ao an am ai nr bp ps l1) as (ps' & l2 & i2 & H2).
  destruct (visit_framed ao an am ai nr bp b l2) as (b' & l3 & i3 & H3).
  exists ds', ps', b', l3, (i1 ++ i2 ++ i3). intros R E Y ctx.
  cbn [visit visit_optional]. unfold bind. rewrite visit_FunctionDef_pushes.
  rewrite H1, H2. unfold ret at 1. cbv beta iota. rewrite H3.
  rewrite leave_FunctionDef_run. cbn [state context]. rewrite pop_frames_app.
  unfold scope_records. cbn [opt_any]. rewrite !orb_false_l, !orb_false_r.
  destruct (return_rule _ _ _ _ f) as [[ty req]|]; cbn [with_returns];
    rewrite <- ?app_assoc; reflexivity.
Qed.

(** X9: what a function definition without return annotation comes back
    with is decided by the facts of its own scope: the return policy is
    applied to the raise, value-returning return and yield found under the
    definition outside any definition nested in it, in whatever state the
    traversal reaches it, and the stacks are left as they were.  So with
    only [none_return] on, the definition gets [-> None] exactly when its
    own scope holds none of the three. *)
Theorem function_annotated_from_own_scope
    (ao an : list NamedParam) (am ai nr bp : bool)
    (ds : list node) (f : string) (ps b : node) (l : bool) :
  (exists ds' ps' b' l' imps,
      forall (R E Y : list bool) (ctx : list (string * string)),
        visit (FunctionDef ds f ps None b)
              (mkCommand (mkState ao an am ai nr bp R E Y l) ctx)
        = match return_rule (mkState ao an am ai nr bp R E Y l')
                  (scope_records SeenReturn ds ps None b)
                  (scope_records SeenRaise ds ps None b)
                  (scope_records SeenYield ds ps None b) f with
          | Some (ty, req) =>
              Ok (FunctionDef ds' f ps' (Some (Annotation (Name ty))) b',
                  mkCommand (mkState ao an am ai nr bp R E Y l') (ctx ++ imps ++ req))
          | None =>
              Ok (FunctionDef ds' f ps' None b',
                  mkCommand (mkState ao an am ai nr bp R E Y l') (ctx ++ imps))
          end)
  /\ (forall R E Y ctx n' c',
         visit (FunctionDef ds f ps None b)
               (mkCommand (mkState ao an am ai nr bp R E Y l) ctx) = Ok (n', c') ->
         (nr = true ->
          scope_records SeenReturn ds ps None b = false ->
          scope_records SeenRaise ds ps None b = false ->
          scope_records SeenYield ds ps None b = false ->
          exists ds' ps' b',
            n' = FunctionDef ds' f ps' (Some (Annotation (Name "None"))) b')
         /\ (am = false -> ai = false ->
             nr = false
             \/ scope_records SeenReturn ds ps None b = true
             \/ scope_records SeenRaise ds ps None b = true
             \/ scope_records SeenYield ds ps None b = true ->
             exists ds' ps' b', n' = FunctionDef ds' f ps' None b')).
Proof.
  destruct (visit_unannotated_FunctionDef ao an am ai nr bp ds f ps b l)
    as (ds' & ps' & b' & l' & imps & H).
  split; [now exists ds', ps', b', l', imps|].
  intros R E Y ctx n' c' Hv. rewrite H in Hv. unfold return_rule in Hv.
  cbn [none_return annotate_magics annotate_imprecise_magics] in Hv.
  split.
  - intros -> Hr He Hy. rewrite Hr, He, Hy in Hv. cbn in Hv.
    injection Hv as <- _. now exists ds', ps', b'.
  - intros -> -> Hfact.
    assert (Ha : nr && negb (scope_records SeenRaise ds ps None b)
                 && negb (scope_records SeenReturn ds ps None b)
                 && negb (scope_records SeenYield ds ps None b) = false).
    { destruct Hfact as [-> | [Hf | [Hf | Hf]]]; [reflexivity | | |];
        rewrite Hf; cbn; rewrite ?andb_false_r; reflexivity. }
    rewrite Ha in Hv. injection Hv as <- _. now exists ds', ps', b'.
Qed.

Lemma function_annotated_from_own_scope_witness :
  (exists ds' ps' b',
      FunctionDef [] "outer" (Parameters [])
        (Some (Annotation (Name "None")))
        (Other "IndentedBlock"
           [FunctionDef [] "inner" (Parameters []) None
              (Other "IndentedBlock" [Return (Some (Name "x"))])])
      = FunctionDef ds' "outer" ps' (Some (Annotation (Name "None"))) b')
  /\ (exists ds' ps' b',
         FunctionDef [] "inner" (Parameters []) None
           (Other "IndentedBlock" [Return (Some (Name "x"))])
         = FunctionDef ds' "inner" ps' None b').
Proof.
  split.
  - apply (proj1 (proj2 (function_annotated_from_own_scope
                           [] [] false false true false
                           [] "outer" (Parameters [])
                           (Other "IndentedBlock"
                              [FunctionDef [] "inner" (Parameters []) None
                                 (Other "IndentedBlock" [Return (Some (Name "x"))])])
                           false)
                        [false] [false] [false] []
                        (FunctionDef [] "outer" (Parameters [])
                           (Some (Annotation (Name "None")))
                           (Other "IndentedBlock"
                              [FunctionDef [] "inner" (Parameters []) None
                                 (Other "IndentedBlock" [Return (Some (Name "x"))])]))
                        (mkCommand (mkState [] [] false false true false
                                            [false] [false] [false] false) [])
                        ltac:(vm_compute; reflexivity)));
      vm_compute; reflexivity.
  - apply (proj2 (proj2 (function_annotated_from_own_scope
                           [] [] false false true false
                           [] "inner" (Parameters [])
                           (Other "IndentedBlock" [Return (Some (Name "x"))])
                           false)
                        [false] [false] [false] []
                        (FunctionDef [] "inner" (Parameters []) None
                           (Other "IndentedBlock" [Return (Some (Name "x"))]))
                        (mkCommand (mkState [] [] false false true false
                                            [false] [false] [false] false) [])
                        ltac:(vm_compute; reflexivity)));
      [reflexivity | reflexivity | right; left; vm_compute; reflexivity].
Defined.

(** ** The lambda flag along a traversal *)

Lemma flag_and_ret {A : Type} (a : A) : flag_and (ret a) true.
Proof.
  intros c a0 c' H. apply ret_inv in H. destruct H as [_ ->].
  now rewrite andb_true_r.
Qed.

Lemma flag_and_bind {A B : Type} (m : M A) (k : A -> M B) (p q : bool) :
  flag_and m p -> (forall a, flag_and (k a) q) -> flag_and (bind m k) (p && q).
Proof.
  intros Hm Hk c b c' H. apply bind_inv in H. destruct H as (a & c1 & H1 & H2).
  rewrite (Hk _ _ _ _ H2), (Hm _ _ _ H1). now rewrite andb_assoc.
Qed.

Lemma flag_and_eq {A : Type} (m : M A) (p q : bool) :
  flag_and m p -> p = q -> flag_and m q.
Proof. now intros H <-. Qed.

Lemma flag_and_visit_FunctionDef (n : node) : flag_and (visit_FunctionDef n) true.
Proof.
  intros c a c'. unfold visit_FunctionDef, bind, get_state, put_state. cbn.
  intros H. injection H as _ <-. cbn. now rewrite andb_true_r.
Qed.

Lemma flag_and_visit_Return (n : node) : flag_and (visit_Return n) true.
Proof.
  intros c a c'.
  destruct n as [ | | | | | | | | |[v|]| | | ]; simpl;
    try (intros H; apply ret_inv in H; destruct H as [_ ->];
         now rewrite andb_true_r).
  unfold bind, get_state, lift_index, put_state.
  destruct (Py.set_last (seen_return_statement (state c)) true); [|discriminate].
  intros H. injection H as _ <-. cbn. now rewrite andb_true_r.
Qed.

Lemma flag_and_visit_Raise (n : node) : flag_and (visit_Raise n) true.
Proof.
  intros c a c'. unfold visit_Raise, bind, get_state, lift_index, put_state.
  destruct (Py.set_last (seen_raise_statement (state c)) true); [|discriminate].
  intros H. injection H as _ <-. cbn. now rewrite andb_true_r.
Qed.

Lemma flag_and_visit_Yield (n : node) : flag_and (visit_Yield n) true.
Proof.
  intros c a c'. unfold visit_Yield, bind, get_state, lift_index, put_state.
  destruct (Py.set_last (seen_yield (state c)) true); [|discriminate].
  intros H. injection H as _ <-. cbn. now rewrite andb_true_r.
Qed.

Lemma flag_and_leave_Lambda (o u : node) : flag_and (leave_Lambda o u) false.
Proof.
  intros c a c'. unfold leave_Lambda, bind, get_state, put_state, ret. cbn.
  intros H. injection H as _ <-. cbn. now rewrite andb_false_r.
Qed.

Lemma flag_and_leave_Param (x : string) (a d : option node) (u : node) :
  flag_and (leave_Param (Param x a d) u) true.
Proof.
  intros c n' c' H. apply leave_Param_effect in H. destruct H as [-> _].
  now rewrite andb_true_r.
Qed.

Lemma flag_and_leave_FunctionDef (ds : list node) (f : string) (ps : node)
    (r : option node) (b u : node) :
  flag_and (leave_FunctionDef (FunctionDef ds f ps r b) u) true.
Proof.
  intros c n' c'. rewrite leave_FunctionDef_run.
  destruct (pop_frames (state c)) as [[[[sr se] sy] s]|] eqn:Hp; [|discriminate].
  destruct (pop_frames_config _ Hp) as (_ & _ & _ & _ & _ & _ & Hl).
  rewrite andb_true_r, <- Hl.
  destruct r as [r|]; [intros H; now injection H as _ <-|].
  destruct (return_rule s sr se sy f) as [[ty imps]|];
    intros H; now injection H as _ <-.
Qed.

Lemma flag_and_visit_optional (o : option node) :
  opt_all (fun n => flag_and (visit n) (lambda_free n)) o ->
  flag_and (visit_optional visit o) (opt_lambda_free o).
Proof.
  destruct o as [n|]; simpl; intros H.
  - eapply flag_and_eq.
    + apply flag_and_bind; [exact H|]. intros a. apply flag_and_ret.
    + apply andb_true_r.
  - apply flag_and_ret.
Qed.

Lemma flag_and_visit_sequence (ns : list node) :
  Forall (fun n => flag_and (visit n) (lambda_free n)) ns ->
  flag_and (visit_sequence visit ns) (forallb lambda_free ns).
Proof.
  induction 1 as [|n ns Hn _ IH]; simpl.
  - apply flag_and_ret.
  - eapply flag_and_eq.
    + apply flag_and_bind; [exact Hn|]. intros n'.
      apply flag_and_bind; [exact IH|]. intros ns'. apply flag_and_ret.
    + now rewrite andb_true_r.
Qed.

Local Ltac flag_step :=
  first
    [ eassumption
    | apply flag_and_ret
    | apply flag_and_leave_Param
    | apply flag_and_leave_FunctionDef
    | apply flag_and_leave_Lambda
    | apply flag_and_visit_FunctionDef
    | apply flag_and_visit_Return
    | apply flag_and_visit_Raise
    | apply flag_and_visit_Yield
    | apply flag_and_visit_optional; assumption
    | apply flag_and_visit_sequence; assumption
    | eapply flag_and_bind; [|intro] ].

Local Ltac flag_chain :=
  eapply flag_and_eq;
  [ repeat flag_step
  | cbn [lambda_free]; fold opt_lambda_free;
    rewrite ?andb_true_r, ?andb_true_l, ?andb_assoc; reflexivity ].

Lemma visit_flag (n : node) : flag_and (visit n) (lambda_free n).
Proof.
  revert n. apply (@node_induction (fun n => flag_and (visit n) (lambda_free n))).
  9: { (* Lambda: the flag is off on exit whatever happened inside *)
    intros ps b _ _ c n' c' H. cbn [visit] in H.
    apply bind_inv in H. destruct H as (? & c1 & _ & H).
    apply bind_inv in H. destruct H as (? & c2 & _ & H).
    apply bind_inv in H. destruct H as (? & c3 & _ & H).
    rewrite (flag_and_leave_Lambda H). cbn [lambda_free].
    now rewrite !andb_false_r. }
  all: intros; cbn [visit]; flag_chain.
Qed.

(** X10: after a traversal the lambda flag is what it was before if the
    tree holds no lambda, and off if it holds one anywhere, however deep
    and whatever the flag was on entry: it is a single boolean, cleared by
    every lambda exit.  In particular a traversal that starts with the flag
    off ends with it off. *)
Theorem lambda_flag_after_traversal (n : node) (c : AutotypeCommand) (n' : node)
    (c' : AutotypeCommand) :
  visit n c = Ok (n', c') ->
  in_lambda (state c') = in_lambda (state c) && lambda_free n
  /\ (in_lambda (state c) = false -> in_lambda (state c') = false).
Proof.
  intros H. assert (Hf := visit_flag n). unfold flag_and in Hf.
  specialize (Hf _ _ _ H). split; [exact Hf|].
  intros Hl. now rewrite Hf, Hl.
Qed.

(** ** Parameters of a lambda *)

Lemma visit_in_lambda (p : node) (c c' : AutotypeCommand) (p' : node) :
  lambda_free p = true -> in_lambda (state c) = true ->
  visit p c = Ok (p', c') ->
  in_lambda (state c') = true /\ (unannotated p = true -> unannotated p' = true).
Proof.
  intros Hfree Hin Hv. split.
  - assert (Hf := visit_flag p). unfold flag_and in Hf.
    rewrite (Hf _ _ _ Hv), Hin, Hfree. reflexivity.
  - destruct p as [ | | | | |x [a|] d| | | | | | | ]; try discriminate.
    intros _. cbn [visit visit_optional] in Hv.
    apply bind_inv in Hv. destruct Hv as (a' & c1 & H1 & Hv).
    apply ret_inv in H1. destruct H1 as [-> ->].
    apply bind_inv in Hv. destruct Hv as (d' & c2 & H2 & Hv).
    assert (Hd : flag_and (visit_optional visit d) (opt_lambda_free d)).
    { apply flag_and_visit_optional. destruct d; simpl; [apply visit_flag | exact I]. }
    assert (Hin2 : in_lambda (state c2) = true).
    { rewrite (Hd _ _ _ H2), Hin. cbn [lambda_free] in Hfree. exact Hfree. }
    apply leave_Param_effect in Hv.
    destruct Hv as [_ [[-> _] | (Hl & _)]]; [reflexivity | congruence].
Qed.

Lemma visit_sequence_in_lambda (ps : list node) (c c' : AutotypeCommand)
    (ps' : list node) :
  forallb lambda_free ps = true -> in_lambda (state c) = true ->
  visit_sequence visit ps c = Ok (ps', c') ->
  Forall2 (fun p p' => unannotated p = true -> unannotated p' = true) ps ps'.
Proof.
  revert c c' ps'. induction ps as [|p ps IH]; intros c c' ps' Hfree Hin H.
  - apply ret_inv in H. destruct H as [-> _]. constructor.
  - rewrite visit_sequence_cons in H. cbn in Hfree. apply andb_prop in Hfree.
    destruct Hfree as [Hp Hps].
    apply bind_inv in H. destruct H as (p' & c1 & H1 & H).
    apply bind_inv in H. destruct H as (ps1 & c2 & H2 & H).
    apply ret_inv in H. destruct H as [-> _].
    destruct (@visit_in_lambda p c c1 p' Hp Hin H1) as [Hin1 Hun].
    constructor; [exact Hun | exact (IH c1 c2 ps1 Hps Hin1 H2)].
Qed.

(** X11: the guard of [leave_Param] holds for a lambda whose parameter
    list holds no lambda of its own: whatever the configuration and the
    state on entry, each of its parameters without annotation comes back
    without annotation. *)
Theorem lambda_parameters_stay_unannotated
    (ps : list node) (b : node) (c : AutotypeCommand) (n' : node)
    (c' : AutotypeCommand) :
  forallb lambda_free ps = true ->
  visit (Lambda (Parameters ps) b) c = Ok (n', c') ->
  exists ps' b',
    n' = Lambda (Parameters ps') b'
    /\ Forall2 (fun p p' => unannotated p = true -> unannotated p' = true) ps ps'.
Proof.
  intros Hfree H. cbn [visit] in H.
  apply bind_inv in H. destruct H as ([] & c1 & H1 & H).
  apply bind_inv in H. destruct H as (ps1 & c2 & H2 & H).
  apply bind_inv in H. destruct H as (b' & c3 & H3 & H).
  apply bind_inv in H2. destruct H2 as (ps' & c4 & H2 & Hr).
  apply ret_inv in Hr. destruct Hr as [-> ->].
  apply leave_Lambda_again in H. destruct H as [-> _].
  exists ps', b'. split; [reflexivity|].
  assert (Hin : in_lambda (state c1) = true).
  { revert H1. unfold visit_Lambda, bind, get_state, put_state. cbn.
    intros H1. now injection H1 as <-. }
  exact (@visit_sequence_in_lambda ps c1 c4 ps' Hfree Hin H2).
Qed.

Lemma lambda_parameters_stay_unannotated_witness :
  exists ps' b',
    Lambda (Parameters [Param "y" None (Some (Name "None"));
                        Param "flag" None (Some (Name "True"))])
           (Lambda (Parameters []) (Name "y"))
    = Lambda (Parameters ps') b'
    /\ Forall2 (fun p p' => unannotated p = true -> unannotated p' = true)
               [Param "y" None (Some (Name "None"));
                Param "flag" None (Some (Name "True"))]
               ps'.
Proof.
  apply (@lambda_parameters_stay_unannotated
           [Param "y" None (Some (Name "None")); Param "flag" None (Some (Name "True"))]
           (Lambda (Parameters []) (Name "y"))
           (mkCommand (mkState [mkNamedParam "y" "m" "Y"] [] true true true true
                               [false] [false] [false] false) [])
           (Lambda (Parameters [Param "y" None (Some (Name "None"));
                                Param "flag" None (Some (Name "True"))])
                   (Lambda (Parameters []) (Name "y")))
           (mkCommand (mkState [mkNamedParam "y" "m" "Y"] [] true true true true
                               [false] [false] [false] false) []));
    reflexivity.
Defined.

(** ** No request without an annotation *)

Lemma visit_FunctionDef_context (n : node) (c c' : AutotypeCommand) (a : unit) :
  visit_FunctionDef n c = Ok (a, c') -> context c' = context c.
Proof.
  unfold visit_FunctionDef, bind, get_state, put_state. cbn.
  intros H. now injection H as _ <-.
Qed.

Lemma visit_Return_context (n : node) (c c' : AutotypeCommand) (a : unit) :
  visit_Return n c = Ok (a, c') -> context c' = context c.
Proof.
  destruct n as [ | | | | | | | | |[v|]| | | ]; simpl;
    try (intros H; apply ret_inv in H; now destruct H as [_ ->]).
  unfold bind, get_state, lift_index, put_state.
  destruct (Py.set_last (seen_return_statement (state c)) true); [|discriminate].
  intros H. now injection H as _ <-.
Qed.

Lemma visit_Raise_context (n : node) (c c' : AutotypeCommand) (a : unit) :
  visit_Raise n c = Ok (a, c') -> context c' = context c.
Proof.
  unfold visit_Raise, bind, get_state, lift_index, put_state.
  destruct (Py.set_last (seen_raise_statement (state c)) true); [|discriminate].
  intros H. now injection H as _ <-.
Qed.

Lemma visit_Yield_context (n : node) (c c' : AutotypeCommand) (a : unit) :
  visit_Yield n c = Ok (a, c') -> context c' = context c.
Proof.
  unfold visit_Yield, bind, get_state, lift_index, put_state.
  destruct (Py.set_last (seen_yield (state c)) true); [|discriminate].
  intros H. now injection H as _ <-.
Qed.

Lemma visit_Lambda_context (n : node) (c c' : AutotypeCommand) (a : unit) :
  visit_Lambda n c = Ok (a, c') -> context c' = context c.
Proof.
  unfold visit_Lambda, bind, get_state, put_state. cbn.
  intros H. now injection H as _ <-.
Qed.

Lemma leave_Lambda_context (o u : node) (c c' : AutotypeCommand) (n' : node) :
  leave_Lambda o u c = Ok (n', c') -> n' = u /\ context c' = context c.
Proof.
  unfold leave_Lambda, bind, get_state, put_state, ret. cbn.
  intros H. now injection H as <- <-.
Qed.

Lemma quiet_optional (o : option node) :
  opt_all quiet o ->
  forall c c', visit_optional visit o c = Ok (o, c') -> context c' = context c.
Proof.
  destruct o as [n|]; simpl; intros Hn c c' H.
  - apply bind_inv in H. destruct H as (n1 & c1 & H1 & H).
    apply ret_inv in H. destruct H as [E ->]. injection E as <-.
    exact (Hn _ _ H1).
  - apply ret_inv in H. now destruct H as [_ ->].
Qed.

Lemma quiet_sequence (ns : list node) :
  Forall quiet ns ->
  forall c c', visit_sequence visit ns c = Ok (ns, c') -> context c' = context c.
Proof.
  induction 1 as [|n ns Hn _ IH]; intros c c' H.
  - apply ret_inv in H. now destruct H as [_ ->].
  - rewrite visit_sequence_cons in H.
    apply bind_inv in H. destruct H as (n1 & c1 & H1 & H).
    apply bind_inv in H. destruct H as (ns1 & c2 & H2 & H).
    apply ret_inv in H. destruct H as [E ->]. injection E as <- <-.
    rewrite (IH _ _ H2). exact (Hn _ _ H1).
Qed.

Lemma visit_quiet (n : node) : quiet n.
Proof.
  revert n. apply (@node_induction quiet).
  - intros v c c' H. apply ret_inv in H. now destruct H as [_ ->].
  - intros a IH c c' H. cbn [visit] in H.
    apply bind_inv in H. destruct H as (a1 & c1 & H1 & H).
    apply ret_inv in H. destruct H as [E ->]. injection E as <-.
    exact (IH _ _ H1).
  - intros a IH c c' H. cbn [visit] in H.
    apply bind_inv in H. destruct H as (a1 & c1 & H1 & H).
    apply ret_inv in H. destruct H as [E ->]. injection E as <-.
    exact (IH _ _ H1).
  - intros a IH c c' H. cbn [visit] in H.
    apply bind_inv in H. destruct H as (a1 & c1 & H1 & H).
    apply ret_inv in H. destruct H as [E ->]. injection E as <-.
    exact (IH _ _ H1).
  - intros v sl IHv IHsl c c' H. cbn [visit] in H.
    apply bind_inv in H. destruct H as (v1 & c1 & H1 & H).
    apply bind_inv in H. destruct H as (sl1 & c2 & H2 & H).
    apply ret_inv in H. destruct H as [E ->]. injection E as <- <-.
    rewrite (@quiet_sequence _ IHsl _ _ H2). exact (IHv _ _ H1).
  - intros x a d IHa IHd c c' H. cbn [visit] in H.
    apply bind_inv in H. destruct H as (a1 & c1 & H1 & H).
    apply bind_inv in H. destruct H as (d1 & c2 & H2 & H).
    apply leave_Param_effect in H.
    destruct H as [_ [[E ->] | (_ & -> & t & _ & E & _)]].
    + injection E as <- <-.
      rewrite (@quiet_optional _ IHd _ _ H2). exact (@quiet_optional _ IHa _ _ H1).
    + discriminate E.
  - intros ps IH c c' H. cbn [visit] in H.
    apply bind_inv in H. destruct H as (ps1 & c1 & H1 & H).
    apply ret_inv in H. destruct H as [E ->]. injection E as <-.
    exact (@quiet_sequence _ IH _ _ H1).
  - intros ds f ps r b IHds IHps IHr IHb c c' H. cbn [visit] in H.
    apply bind_inv in H. destruct H as (u0 & c0 & H0 & H).
    apply bind_inv in H. destruct H as (ds1 & c1 & H1 & H).
    apply bind_inv in H. destruct H as (ps1 & c2 & H2 & H).
    apply bind_inv in H. destruct H as (r1 & c3 & H3 & H).
    apply bind_inv in H. destruct H as (b1 & c4 & H4 & H).
    rewrite leave_FunctionDef_run in H.
    destruct (pop_frames (state c4)) as [[[[sr se] sy] s]|]; [|discriminate].
    assert (Hsame : FunctionDef ds1 f ps1 r1 b1 = FunctionDef ds f ps r b ->
                    context c4 = context c).
    { intros E. injection E as -> -> -> ->.
      rewrite (IHb _ _ H4), (@quiet_optional _ IHr _ _ H3), (IHps _ _ H2),
        (@quiet_sequence _ IHds _ _ H1).
      exact (@visit_FunctionDef_context _ _ _ _ H0). }
    destruct r as [r|].
    + assert (E : FunctionDef ds1 f ps1 r1 b1 = FunctionDef ds f ps (Some r) b)
        by congruence.
      assert (Ec : c' = mkCommand s (context c4)) by congruence.
      subst c'. cbn [context]. exact (Hsame E).
    + destruct (return_rule s sr se sy f) as [[ty imps]|].
      * cbn [with_returns] in H. discriminate H.
      * assert (E : FunctionDef ds1 f ps1 r1 b1 = FunctionDef ds f ps None b)
          by congruence.
        assert (Ec : c' = mkCommand s (context c4)) by congruence.
        subst c'. cbn [context]. exact (Hsame E).
  - intros ps b IHps IHb c c' H. cbn [visit] in H.
    apply bind_inv in H. destruct H as (u0 & c0 & H0 & H).
    apply bind_inv in H. destruct H as (ps1 & c1 & H1 & H).
    apply bind_inv in H. destruct H as (b1 & c2 & H2 & H).
    apply leave_Lambda_context in H. destruct H as [E ->]. injection E as <- <-.
    rewrite (IHb _ _ H2), (IHps _ _ H1). exact (@visit_Lambda_context _ _ _ _ H0).
  - intros v IH c c' H. cbn [visit] in H.
    apply bind_inv in H. destruct H as (u0 & c0 & H0 & H).
    apply bind_inv in H. destruct H as (v1 & c1 & H1 & H).
    apply ret_inv in H. destruct H as [E ->]. injection E as <-.
    rewrite (@quiet_optional _ IH _ _ H1). exact (@visit_Return_context _ _ _ _ H0).
  - intros e ca IHe IHc c c' H. cbn [visit] in H.
    apply bind_inv in H. destruct H as (u0 & c0 & H0 & H).
    apply bind_inv in H. destruct H as (e1 & c1 & H1 & H).
    apply bind_inv in H. destruct H as (ca1 & c2 & H2 & H).
    apply ret_inv in H. destruct H as [E ->]. injection E as <- <-.
    rewrite (@quiet_optional _ IHc _ _ H2), (@quiet_optional _ IHe _ _ H1).
    exact (@visit_Raise_context _ _ _ _ H0).
  - intros v IH c c' H. cbn [visit] in H.
    apply bind_inv in H. destruct H as (u0 & c0 & H0 & H).
    apply bind_inv in H. destruct H as (v1 & c1 & H1 & H).
    apply ret_inv in H. destruct H as [E ->]. injection E as <-.
    rewrite (@quiet_optional _ IH _ _ H1). exact (@visit_Yield_context _ _ _ _ H0).
  - intros k cs IH c c' H. cbn [visit] in H.
    apply bind_inv in H. destruct H as (cs1 & c1 & H1 & H).
    apply ret_inv in H. destruct H as [E ->]. injection E as <-.
    exact (@quiet_sequence _ IH _ _ H1).
Qed.

(** X12: imports are requested only together with an annotation: a
    traversal that returns the tree it was given has requested nothing, so
    an invocation whose output tree is its input asks for no import. *)
Theorem unchanged_tree_requests_nothing :
  (forall n c c', visit n c = Ok (n, c') -> context c' = context c)
  /\ (forall annotate_optional annotate_named_param am ai nr bp tree imports,
         codemod annotate_optional annotate_named_param am ai nr bp tree
         = Ok (tree, imports) ->
         imports = []).
Proof.
  split.
  - intros n c c' H. assert (Hq := @visit_quiet n). unfold quiet in Hq.
    exact (Hq c c' H).
  - intros ao an am ai nr bp tree imports. unfold codemod.
    destruct (__init__ ao an am ai nr bp) as [cmd|] eqn:Hinit; [|discriminate].
    unfold transform_module.
    destruct (visit tree cmd) as [[t c']|] eqn:Hv; [|discriminate].
    intros H. injection H as -> <-.
    assert (Hq := @visit_quiet tree). unfold quiet in Hq.
    rewrite (Hq cmd c' Hv). exact (@init_context _ _ _ _ _ _ _ Hinit).
Qed.

(** ** Instances *)



Lemma requests_come_from_rules_and_tables_witness :
  Forall (fun i =>
            i = ("typing", "Optional")
            \/ In i (map snd IMPRECISE_MAGICS)
            \/ exists s r,
                In s (strings_of (Some ["x:mymod.Foo"; "y:m.Y"])
                      ++ strings_of (Some ["n:numbers.Number"]))
                /\ make s = Ok r /\ i = (module r, type_name r))
         [("mymod", "Foo"); ("typing", "Optional"); ("typing", "Iterator");
          ("numbers", "Number")].
Proof.
  apply (proj2 requests_come_from_rules_and_tables
           (Some ["x:mymod.Foo"; "y:m.Y"]) (Some ["n:numbers.Number"])
           true true true true example_module example_module_annotated).
  reflexivity.
Defined.

Lemma lambda_flag_after_traversal_witness :
  in_lambda
    (state (mkCommand (mkState [] [] false false false false
                               [false] [false] [false] false) []))
  = true && lambda_free lambda_in_default.
Proof.
  apply (proj1 (@lambda_flag_after_traversal lambda_in_default
                  (mkCommand (mkState [] [] false false false false
                                      [false] [false] [false] true) [])
                  lambda_in_default
                  (mkCommand (mkState [] [] false false false false
                                      [false] [false] [false] false) [])
                  eq_refl)).
Defined.

Lemma unchanged_tree_requests_nothing_witness :
  @nil (string * string) = [].
Proof.
  apply (proj2 unchanged_tree_requests_nothing
           (Some ["x:mymod.Foo"]) None true true true true
           (Other "Module"
              [FunctionDef [] "f" (Parameters [Param "a" None (Some (Other "Integer" []))])
                 None (Other "IndentedBlock" [Return (Some (Name "a"))])])
           []).
  reflexivity.
Defined.
